(** * An in-memory item store behind an HTTP handler layer

    Shallow embedding of [src/elysiaApp.ts]: the decorated [store] object
    (an array of items and the [nextId] counter) and the six route handlers
    registered on the Elysia application.

    Numbers.  Item ids and the counter are JavaScript numbers that start at
    [1] and only ever grow by [++]; they are modelled as [Z].  (The
    arithmetic of the source is exact on integers below [2^53].)  The [:id]
    path parameter is a number as well; the handlers only compare it with
    [===] against the stored ids.

    Two levels are given.  The first one threads the store as a value
    through the handlers; it is the level at which the contents of the
    store are described.  The second one, in [Module Refs], keeps the
    arrays in a heap and lets the store hold a reference, as the source
    does, so that the identity of what [GET /items] returns can be
    stated; it is related to the first by a simulation lemma. *)

From Stdlib Require Import Sorted.
From stdpp Require Import base numbers option list strings gmap.

Local Open Scope Z_scope.

(** ** Data model *)

(** [{ id: number; name: string }] *)
Module Item.
Record t : Type := mk { id : Z; name : string }.

#[global] Instance eq_dec : EqDecision t.
Proof. solve_decision. Defined.
End Item.

(** [interface Store { items: {...}[]; nextId: number }] *)
Record Store : Type := mkStore {
  items : list Item.t;
  nextId : Z
}.

#[global] Instance Store_eq_dec : EqDecision Store.
Proof. solve_decision. Defined.

(** The object handed to [decorate]: [{ items: [], nextId: 1 }]. *)
Definition init : Store := {| items := []; nextId := 1 |}.

(** ** What a handler gives back *)

(** A handler either returns a plain JavaScript value, which the framework
    turns into the response, or builds the response itself with
    [new Response(body, { status })]. *)
Inductive Value : Type :=
  | VText (s : string)
  | VItem (i : Item.t)
  | VItems (l : list Item.t)
  | VUndefined.

Inductive Returned : Type :=
  | Plain (v : Value)
  | NewResponse (text : string) (code : Z).

#[global] Instance Value_eq_dec : EqDecision Value.
Proof. solve_decision. Defined.

#[global] Instance Returned_eq_dec : EqDecision Returned.
Proof. solve_decision. Defined.

Record Response : Type := mkResponse {
  status : Z;
  body : Value
}.

#[global] Instance Response_eq_dec : EqDecision Response.
Proof. solve_decision. Defined.

(** Modelled from the spec: the framework's mapping of a handler's return
    value to an HTTP response (Elysia itself is not part of the sources).
    The interface table gives status 200 to every plain value a handler
    returns; a [Response] object built by the handler is sent as it is. *)
Definition respond (r : Returned) : Response :=
  match r with
  | Plain v => {| status := 200; body := v |}
  | NewResponse text code => {| status := code; body := VText text |}
  end.

(** ** Array primitives used by the handlers *)

(** [Array.prototype.findIndex]: the index of the first element that
    satisfies the predicate, [-1] when there is none. *)
Fixpoint findIndex {A : Type} (p : A → bool) (l : list A) : Z :=
  match l with
  | [] => -1
  | x :: l' =>
      if p x then 0
      else let k := findIndex p l' in
           if k =? -1 then -1 else k + 1
  end.

(** [Array.prototype.find]: the first element that satisfies the
    predicate, [undefined] ([None]) when there is none. *)
Definition find {A : Type} (p : A → bool) (l : list A) : option A :=
  List.find p l.

(** [(i) => i.id === id] and [(i) => i.id !== id] *)
Definition id_is (id : Z) (i : Item.t) : bool := Item.id i =? id.
Definition id_is_not (id : Z) (i : Item.t) : bool := negb (Item.id i =? id).

(** ** The routes *)

Inductive Request : Type :=
  | GetRoot                                  (* GET /           *)
  | GetItems                                 (* GET /items      *)
  | GetItem (id : Z)                         (* GET /items/:id  *)
  | PostItem (name : string)                 (* POST /items     *)
  | PutItem (id : Z) (name : string)         (* PUT /items/:id  *)
  | DeleteItem (id : Z).                     (* DELETE /items/:id *)

Definition banner : string := "ElysiaJS CRUD In-Memory Example".
Definition not_found : Returned := NewResponse "Item not found" 404.
Definition deleted : Returned := NewResponse "Item deleted successfully" 200.

(** [.get("/", () => "ElysiaJS CRUD In-Memory Example")] *)
Definition get_root (store : Store) : Store * Returned :=
  (store, Plain (VText banner)).

(** [({ store }) => { return store.items; }] *)
Definition get_items (store : Store) : Store * Returned :=
  (store, Plain (VItems (items store))).

(** [const item = store.items.find((i) => i.id === id);
     if (!item) return new Response("Item not found", { status: 404 });
     return item;] *)
Definition get_item (store : Store) (id : Z) : Store * Returned :=
  let item := find (id_is id) (items store) in
  match item with
  | None => (store, not_found)
  | Some i => (store, Plain (VItem i))
  end.

(** [const newItem = { id: store.nextId++, name: body.name };
     store.items.push(newItem);
     return newItem;]

    The increment is the one of [Z]: it is that of the source as long as
    the counter is in the range [counter_exact] below. *)
Definition post_item (store : Store) (name : string) : Store * Returned :=
  let newItem := Item.mk (nextId store) name in
  let store := {| items := items store; nextId := nextId store + 1 |} in
  let store := {| items := items store ++ [newItem]; nextId := nextId store |} in
  (store, Plain (VItem newItem)).

(** Reading [a[k]]: [undefined] outside the array. *)
Definition at_index (a : list Item.t) (k : Z) : Value :=
  match a !! Z.to_nat k with
  | Some i => VItem i
  | None => VUndefined
  end.

(** [const itemIndex = store.items.findIndex((i) => i.id === id);
     if (itemIndex === -1) return new Response("Item not found", { status: 404 });
     store.items[itemIndex] = { id, name: body.name };
     return store.items[itemIndex];]

    The assignment is only reached with an index [findIndex] produced,
    which lies inside the array ([findIndex_range] below), where the
    list update coincides with the array assignment. *)
Definition put_item (store : Store) (id : Z) (name : string) : Store * Returned :=
  let itemIndex := findIndex (id_is id) (items store) in
  if itemIndex =? -1 then (store, not_found)
  else
    let store :=
      {| items := <[Z.to_nat itemIndex := Item.mk id name]> (items store);
         nextId := nextId store |} in
    (store, Plain (at_index (items store) itemIndex)).

(** [const initialLength = store.items.length;
     store.items = store.items.filter((i) => i.id !== id);
     if (store.items.length === initialLength)
       return new Response("Item not found", { status: 404 });
     return new Response("Item deleted successfully", { status: 200 });] *)
Definition delete_item (store : Store) (id : Z) : Store * Returned :=
  let initialLength := length (items store) in
  let store :=
    {| items := List.filter (id_is_not id) (items store);
       nextId := nextId store |} in
  if (length (items store) =? initialLength)%nat then (store, not_found)
  else (store, deleted).

Definition handle (store : Store) (req : Request) : Store * Returned :=
  match req with
  | GetRoot => get_root store
  | GetItems => get_items store
  | GetItem id => get_item store id
  | PostItem name => post_item store name
  | PutItem id name => put_item store id name
  | DeleteItem id => delete_item store id
  end.

(** ** Serving a sequence of requests *)

(** The requests are served one after the other; the trace pairs each
    request with what its handler returned. *)
Fixpoint run (store : Store) (reqs : list Request)
  : Store * list (Request * Returned) :=
  match reqs with
  | [] => (store, [])
  | req :: reqs' =>
      let '(store1, out) := handle store req in
      let '(store2, trace) := run store1 reqs' in
      (store2, (req, out) :: trace)
  end.

(** The ids handed out by the [POST /items] calls of a trace, in call order. *)
Fixpoint issued (trace : list (Request * Returned)) : list Z :=
  match trace with
  | [] => []
  | (PostItem _, Plain (VItem i)) :: trace' => Item.id i :: issued trace'
  | _ :: trace' => issued trace'
  end.

(** The requests that create an item. *)
Definition is_post (req : Request) : bool :=
  match req with PostItem _ => true | _ => false end.

(** The requests whose handlers write nothing. *)
Definition is_read (req : Request) : bool :=
  match req with GetRoot | GetItems | GetItem _ => true | _ => false end.

(** A store state the running application can be in. *)
Definition reachable (store : Store) : Prop :=
  ∃ reqs : list Request, (run init reqs).1 = store.

(** The ids of the stored items, in sequence order. *)
Definition ids (store : Store) : list Z := Item.id <$> items store.

(** The invariant of the data model. *)
Definition store_inv (store : Store) : Prop :=
  NoDup (ids store) ∧ Forall (λ i, i < nextId store) (ids store).

(** An item with this id is in the store. *)
Definition present (id : Z) (store : Store) : Prop :=
  ∃ i : Item.t, i ∈ items store ∧ Item.id i = id.

#[global] Instance present_dec id store : Decision (present id store).
Proof.
  refine (cast_if (decide (Exists (λ i, Item.id i = id) (items store))));
    unfold present; rewrite Exists_exists in *; naive_solver.
Defined.

(** The response the interface table gives for a missing item. *)
Definition not_found_response : Response :=
  {| status := 404; body := VText "Item not found" |}.

(** What the client gets for a request served on a store. *)
Definition answer (store : Store) (req : Request) : Response :=
  respond (handle store req).2.

(** A store with two items, used to instantiate the statements below. *)
Definition two_items : Store :=
  {| items := [Item.mk 1 "Widget"; Item.mk 2 "Bolt"]; nextId := 3 |}.

(** Occurrence of a text inside another one. *)
Fixpoint is_prefix (p s : string) : bool :=
  match p, s with
  | EmptyString, _ => true
  | String a p', String b s' => if Ascii.eqb a b then is_prefix p' s' else false
  | String _ _, EmptyString => false
  end.

Fixpoint occurs_in (p s : string) : bool :=
  is_prefix p s ||
  match s with
  | EmptyString => false
  | String _ s' => occurs_in p s'
  end.

(** ** The store as the source holds it: arrays behind references *)

(** [store.items] is a reference to an array.  [push] and the indexed
    assignment change that array in place; [filter] allocates a new array,
    which the [DELETE] handler then stores in [store.items].  The item
    objects themselves are never written to after their creation (the
    [PUT] handler puts a new object into the slot), so they stay values. *)
Module Refs.

Definition loc : Type := positive.

Record State : Type := mkState {
  arrays : gmap loc (list Item.t);   (* every array allocated so far *)
  store_items : loc;                 (* [store.items] *)
  store_nextId : Z                   (* [store.nextId] *)
}.

Inductive RValue : Type :=
  | RText (s : string)
  | RItem (i : Item.t)
  | RArray (l : loc)
  | RUndefined.

Inductive RReturned : Type :=
  | RPlain (v : RValue)
  | RNewResponse (text : string) (code : Z).

Definition first_loc : loc := 1%positive.

Definition init : State :=
  {| arrays := {[ first_loc := [] ]}; store_items := first_loc; store_nextId := 1 |}.

(** What a reference points to. *)
Definition deref (st : State) (l : loc) : option (list Item.t) :=
  arrays st !! l.

(** Writing through [store.items]. *)
Definition write_items (st : State) (a : list Item.t) : State :=
  {| arrays := <[store_items st := a]> (arrays st);
     store_items := store_items st;
     store_nextId := store_nextId st |}.

(** A handler is undefined ([None]) only on a state whose [store.items]
    points nowhere, which no JavaScript state does. *)
Definition handle (st : State) (req : Request) : option (State * RReturned) :=
  match req with
  | GetRoot => Some (st, RPlain (RText banner))
  | GetItems => Some (st, RPlain (RArray (store_items st)))
  | GetItem id =>
      a ← deref st (store_items st);
      match find (id_is id) a with
      | None => Some (st, RNewResponse "Item not found" 404)
      | Some i => Some (st, RPlain (RItem i))
      end
  | PostItem name =>
      let newItem := Item.mk (store_nextId st) name in
      let st := {| arrays := arrays st; store_items := store_items st;
                   store_nextId := store_nextId st + 1 |} in
      a ← deref st (store_items st);
      let st := write_items st (a ++ [newItem]) in
      Some (st, RPlain (RItem newItem))
  | PutItem id name =>
      a ← deref st (store_items st);
      let itemIndex := findIndex (id_is id) a in
      if itemIndex =? -1 then Some (st, RNewResponse "Item not found" 404)
      else
        let st := write_items st (<[Z.to_nat itemIndex := Item.mk id name]> a) in
        a' ← deref st (store_items st);
        Some (st, RPlain match a' !! Z.to_nat itemIndex with
                         | Some i => RItem i
                         | None => RUndefined
                         end)
  | DeleteItem id =>
      a ← deref st (store_items st);
      let initialLength := length a in
      let fresh_loc := fresh (dom (arrays st)) in
      let st := {| arrays := <[fresh_loc := List.filter (id_is_not id) a]> (arrays st);
                   store_items := fresh_loc;
                   store_nextId := store_nextId st |} in
      a' ← deref st (store_items st);
      if (length a' =? initialLength)%nat
      then Some (st, RNewResponse "Item not found" 404)
      else Some (st, RNewResponse "Item deleted successfully" 200)
  end.

(** The store of the first level that a state stands for. *)
Definition contents (st : State) : option Store :=
  a ← deref st (store_items st);
  Some {| items := a; nextId := store_nextId st |}.

(** What is sent for a returned value when it is sent in state [st]: an
    array reference is read at that moment. *)
Definition sent (st : State) (r : RReturned) : option Returned :=
  match r with
  | RPlain (RText s) => Some (Plain (VText s))
  | RPlain (RItem i) => Some (Plain (VItem i))
  | RPlain (RArray l) => a ← deref st l; Some (Plain (VItems a))
  | RPlain RUndefined => Some (Plain VUndefined)
  | RNewResponse text code => Some (NewResponse text code)
  end.

End Refs.

(** ** Where the counter is exact *)

(** [store.nextId++] is an addition on a JavaScript number.  On a number
    that holds an integer [n] with [-2^53 ≤ n < 2^53] the result is exactly
    [n + 1]; from [2^53] on the sum is rounded and is no longer [n + 1]
    (at [2^53] the counter stays where it is).  [post_item] adds in [Z]:
    it is the handler on the stores whose counter lies in this range, and
    the statements that let the counter be arbitrary carry the range as a
    hypothesis. *)
Definition counter_exact (n : Z) : Prop := - 2 ^ 53 ≤ n < 2 ^ 53.

(** A run in which every [POST /items] finds the counter in the exact
    range: the counter starts in the range and the [POST] requests of the
    run do not take it beyond [2^53]. *)
Definition run_exact (store : Store) (reqs : list Request) : Prop :=
  - 2 ^ 53 ≤ nextId store ∧
  nextId store + Z.of_nat (length (List.filter is_post reqs)) ≤ 2 ^ 53.

(** ** Bookkeeping over traces and runs at the level of references *)

(** The ids taken out by the [DELETE /items/:id] calls of a trace that
    answered "Item deleted successfully", in call order. *)
Fixpoint removed (trace : list (Request * Returned)) : list Z :=
  match trace with
  | [] => []
  | (DeleteItem id, out) :: trace' =>
      if decide (out = deleted) then id :: removed trace' else removed trace'
  | _ :: trace' => removed trace'
  end.

(** Serving a sequence of requests on a heap state. *)
Fixpoint Refs_run (st : Refs.State) (reqs : list Request) : option Refs.State :=
  match reqs with
  | [] => Some st
  | req :: reqs' => p ← Refs.handle st req; Refs_run p.1 reqs'
  end.

(** A heap state in which the store has replaced its array once: the
    state after [POST /items] and [DELETE /items/1] on the initial one. *)
Definition replaced_once : Refs.State :=
  {| Refs.arrays := {[ 1%positive := [Item.mk 1 "Widget"]; 2%positive := [] ]};
     Refs.store_items := 2%positive;
     Refs.store_nextId := 2 |}.

(** ** Sample runs *)

Example run_scenario_1 :
  run init [PostItem "Widget"; GetItems]
  = ({| items := [Item.mk 1 "Widget"]; nextId := 2 |},
     [(PostItem "Widget", Plain (VItem (Item.mk 1 "Widget")));
      (GetItems, Plain (VItems [Item.mk 1 "Widget"]))]).
Proof. reflexivity. Qed.

Example run_scenario_2 :
  (run init [PostItem "Widget"; GetItem 2]).2
  = [(PostItem "Widget", Plain (VItem (Item.mk 1 "Widget")));
     (GetItem 2, not_found)].
Proof. reflexivity. Qed.

Example run_scenario_3 :
  (run init [PostItem "Widget"; PutItem 1 "Gadget"; GetItem 1]).2
  = [(PostItem "Widget", Plain (VItem (Item.mk 1 "Widget")));
     (PutItem 1 "Gadget", Plain (VItem (Item.mk 1 "Gadget")));
     (GetItem 1, Plain (VItem (Item.mk 1 "Gadget")))].
Proof. reflexivity. Qed.

Example run_scenario_4 :
  (run init [PostItem "Widget"; DeleteItem 1; GetItem 1; PostItem "Next"]).2
  = [(PostItem "Widget", Plain (VItem (Item.mk 1 "Widget")));
     (DeleteItem 1, deleted);
     (GetItem 1, not_found);
     (PostItem "Next", Plain (VItem (Item.mk 2 "Next")))].
Proof. reflexivity. Qed.

(** ** Facts about the array primitives *)

Section array_facts.
Context {A : Type}.
Implicit Types (p : A → bool) (l : list A).

Lemma findIndex_range p l : -1 ≤ findIndex p l < Z.of_nat (length l).
Proof.
  induction l as [|x l IH]; simpl; [lia|].
  destruct (p x); [lia|].
  destruct (Z.eqb_spec (findIndex p l) (-1)); lia.
Qed.

Lemma findIndex_absent p l :
  findIndex p l = -1 ↔ Forall (λ x, p x = false) l.
Proof.
  induction l as [|x l IH]; simpl.
  - split; [constructor | done].
  - destruct (p x) eqn:Hx.
    + split; [lia|]. intros H. apply Forall_cons in H as [Hx' _]. congruence.
    + pose proof (findIndex_range p l).
      destruct (Z.eqb_spec (findIndex p l) (-1)) as [E|E].
      * split; [|done]. intros _. constructor; [done|]. by apply IH.
      * split; [lia|]. intros H0. apply Forall_cons in H0 as [_ Hl].
        by apply IH in Hl.
Qed.

(** A hit of [findIndex] is the first position whose element satisfies
    the predicate. *)
Lemma findIndex_found p l :
  findIndex p l ≠ -1 →
  ∃ x, l !! Z.to_nat (findIndex p l) = Some x ∧ p x = true ∧
       ∀ j y, (j < Z.to_nat (findIndex p l))%nat → l !! j = Some y → p y = false.
Proof.
  induction l as [|x l IH]; simpl; [done|].
  destruct (p x) eqn:Hx.
  - intros _. exists x. split_and!; [done..|]. intros j y Hj. simpl in Hj. lia.
  - pose proof (findIndex_range p l).
    destruct (Z.eqb_spec (findIndex p l) (-1)) as [E|E]; [done|].
    intros _. destruct (IH E) as (y & Hy & Hpy & Hfirst).
    exists y. replace (Z.to_nat (findIndex p l + 1)) with (S (Z.to_nat (findIndex p l))) by lia.
    split_and!; [done..|].
    intros [|j] z Hj Hz; simpl in Hz.
    + congruence.
    + apply (Hfirst j); [lia | done].
Qed.

Lemma find_absent p l : find p l = None ↔ Forall (λ x, p x = false) l.
Proof.
  unfold find. induction l as [|x l IH]; simpl.
  - split; [constructor | done].
  - destruct (p x) eqn:Hx.
    + split; [done|]. intros H. apply Forall_cons in H as [Hx' _]. congruence.
    + rewrite IH. split; [by constructor|]. intros H. by apply Forall_cons in H as [_ Hl].
Qed.

Lemma find_found p l x : find p l = Some x → x ∈ l ∧ p x = true.
Proof.
  unfold find. induction l as [|y l IH]; simpl; [done|].
  destruct (p y) eqn:Hy.
  - intros [= ->]. split; [left | done].
  - intros H. destruct (IH H). split; [by right | done].
Qed.

Lemma filter_all p l : Forall (λ x, p x = true) l → List.filter p l = l.
Proof.
  induction 1 as [|x l Hx _ IH]; simpl; [done|]. by rewrite Hx, IH.
Qed.

Lemma filter_length_le p l : (length (List.filter p l) ≤ length l)%nat.
Proof.
  induction l as [|x l IH]; simpl; [lia|]. destruct (p x); simpl; lia.
Qed.

(** [filter] keeps the length only if it keeps every element. *)
Lemma filter_same_length p l :
  length (List.filter p l) = length l ↔ Forall (λ x, p x = true) l.
Proof.
  split.
  - induction l as [|x l IH]; simpl; [constructor|].
    pose proof (filter_length_le p l) as Hle.
    destruct (p x) eqn:Hx; simpl; intros H.
    + constructor; [done|]. apply IH. lia.
    + lia.
  - intros H. by rewrite filter_all.
Qed.

Lemma elem_of_filter_bool p l x : x ∈ List.filter p l ↔ x ∈ l ∧ p x = true.
Proof.
  rewrite !list_elem_of_In. apply List.filter_In.
Qed.
End array_facts.

(** ** Facts about the handlers *)

Lemma id_is_true id i : id_is id i = true ↔ Item.id i = id.
Proof. unfold id_is. apply Z.eqb_eq. Qed.

Lemma id_is_false id i : id_is id i = false ↔ Item.id i ≠ id.
Proof. unfold id_is. apply Z.eqb_neq. Qed.

Lemma id_is_not_true id i : id_is_not id i = true ↔ Item.id i ≠ id.
Proof. unfold id_is_not. rewrite negb_true_iff. apply Z.eqb_neq. Qed.

Lemma absent_Forall id store :
  ¬ present id store ↔ Forall (λ i, id_is id i = false) (items store).
Proof.
  unfold present. rewrite Forall_forall. split.
  - intros H i Hi. apply id_is_false. intros E. apply H. by exists i.
  - intros H (i & Hi & E). apply H in Hi. by apply id_is_false in Hi.
Qed.

Lemma present_findIndex id store :
  present id store ↔ findIndex (id_is id) (items store) ≠ -1.
Proof.
  rewrite findIndex_absent, <- absent_Forall. split; [tauto|].
  intros H. destruct (decide (present id store)); tauto.
Qed.

Lemma store_eta store : {| items := items store; nextId := nextId store |} = store.
Proof. by destruct store. Qed.

Lemma get_item_absent store id :
  ¬ present id store → get_item store id = (store, not_found).
Proof.
  intros H%absent_Forall%find_absent. unfold get_item. by rewrite H.
Qed.

Lemma get_item_present store id :
  present id store →
  ∃ i, get_item store id = (store, Plain (VItem i)) ∧ i ∈ items store ∧ Item.id i = id.
Proof.
  intros H. unfold get_item.
  destruct (find (id_is id) (items store)) as [i|] eqn:E.
  - apply find_found in E as [? ?%id_is_true]. by exists i.
  - apply find_absent, absent_Forall in E. done.
Qed.

Lemma put_item_absent store id name :
  ¬ present id store → put_item store id name = (store, not_found).
Proof.
  intros H%absent_Forall%findIndex_absent. unfold put_item. by rewrite H.
Qed.

Lemma put_item_present store id name :
  present id store →
  ∃ (k : nat) (old : Item.t),
    items store !! k = Some old ∧ Item.id old = id ∧
    (∀ j i, (j < k)%nat → items store !! j = Some i → Item.id i ≠ id) ∧
    put_item store id name
    = ({| items := <[k := Item.mk id name]> (items store); nextId := nextId store |},
       Plain (VItem (Item.mk id name))).
Proof.
  intros H%present_findIndex. unfold put_item.
  destruct (findIndex_found _ _ H) as (old & Hold & Hid%id_is_true & Hfirst).
  exists (Z.to_nat (findIndex (id_is id) (items store))), old.
  split_and!; [done..| |].
  - intros j i Hj Hi. apply id_is_false. by eapply Hfirst.
  - destruct (Z.eqb_spec (findIndex (id_is id) (items store)) (-1)); [done|].
    unfold at_index. simpl. rewrite list_lookup_insert_eq; [done|].
    by eapply lookup_lt_Some.
Qed.

Lemma delete_item_absent store id :
  ¬ present id store → delete_item store id = (store, not_found).
Proof.
  intros H%absent_Forall. unfold delete_item. simpl.
  rewrite filter_all.
  - rewrite Nat.eqb_refl. by rewrite store_eta.
  - eapply Forall_impl; [exact H|]. intros i Hi. simpl in Hi.
    apply id_is_not_true. by apply id_is_false.
Qed.

Lemma delete_item_present store id :
  present id store →
  delete_item store id
  = ({| items := List.filter (id_is_not id) (items store); nextId := nextId store |},
     deleted).
Proof.
  intros (i & Hi & Hid). unfold delete_item. simpl.
  destruct (Nat.eqb_spec (length (List.filter (id_is_not id) (items store)))
              (length (items store))) as [E|E]; [|done].
  apply filter_same_length in E. rewrite Forall_forall in E.
  apply E, id_is_not_true in Hi. done.
Qed.

(** Deleting leaves no item with the deleted id, whatever the store. *)
Lemma delete_item_gone store id : ¬ present id (delete_item store id).1.
Proof.
  intros (i & Hi & Hid). unfold delete_item in Hi.
  destruct (_ =? _)%nat; simpl in Hi;
    apply elem_of_filter_bool in Hi as [_ Hi%id_is_not_true]; done.
Qed.

(** *** The invariant *)

Lemma ids_insert_same (l : list Item.t) k old name :
  l !! k = Some old →
  Item.id <$> <[k := Item.mk (Item.id old) name]> l = Item.id <$> l.
Proof.
  intros H. rewrite list_fmap_insert. simpl.
  apply list_insert_id. by rewrite list_lookup_fmap, H.
Qed.

Lemma NoDup_ids_filter p (l : list Item.t) :
  NoDup (Item.id <$> l) → NoDup (Item.id <$> List.filter p l).
Proof.
  induction l as [|i l IH]; simpl; [done|].
  intros [Hi Hl]%NoDup_cons. destruct (p i); simpl; [|by apply IH].
  apply NoDup_cons. split; [|by apply IH].
  intros (j & E & Hj%elem_of_filter_bool)%list_elem_of_fmap.
  apply Hi, list_elem_of_fmap. exists j. tauto.
Qed.

Lemma Forall_ids_filter (P : Z → Prop) p (l : list Item.t) :
  Forall P (Item.id <$> l) → Forall P (Item.id <$> List.filter p l).
Proof.
  rewrite !Forall_fmap, !Forall_forall.
  intros H i [Hi _]%elem_of_filter_bool. by apply H.
Qed.

Lemma handle_nextId store req :
  nextId store ≤ nextId (handle store req).1.
Proof.
  destruct req as [| |id|name|id name|id]; simpl; try lia.
  - unfold get_item. destruct (find _ _); simpl; lia.
  - unfold put_item. destruct (_ =? _); simpl; lia.
  - unfold delete_item. destruct (_ =? _)%nat; simpl; lia.
Qed.

Lemma handle_inv store req :
  store_inv store → store_inv (handle store req).1.
Proof.
  intros [Hnd Hlt]. destruct req as [| |id|name|id name|id]; simpl; try done.
  - unfold get_item. by destruct (find _ _).
  - unfold store_inv, ids in *. simpl. rewrite fmap_app. simpl. split.
    + apply NoDup_app. split_and!; [done| |apply NoDup_singleton].
      intros x Hx ->%list_elem_of_singleton.
      rewrite Forall_forall in Hlt. apply Hlt in Hx. lia.
    + apply Forall_app. split.
      * eapply Forall_impl; [exact Hlt|]. simpl. intros; lia.
      * apply Forall_singleton. lia.
  - destruct (decide (present id store)) as [H|H].
    + destruct (put_item_present store id name H) as (k & old & Hk & <- & _ & ->).
      unfold store_inv, ids in *. simpl. by rewrite ids_insert_same.
    + by rewrite put_item_absent.
  - unfold delete_item. unfold store_inv, ids in *.
    destruct (_ =? _)%nat; simpl; split;
      auto using NoDup_ids_filter, Forall_ids_filter.
Qed.

(** *** Runs *)

Lemma run_cons_store store req reqs :
  (run store (req :: reqs)).1 = (run (handle store req).1 reqs).1.
Proof.
  simpl. destruct (handle store req) as [s1 out]. simpl.
  by destruct (run s1 reqs).
Qed.

Lemma run_cons_trace store req reqs :
  (run store (req :: reqs)).2
  = (req, (handle store req).2) :: (run (handle store req).1 reqs).2.
Proof.
  simpl. destruct (handle store req) as [s1 out]. simpl.
  by destruct (run s1 reqs).
Qed.

Lemma run_app_store store reqs1 reqs2 :
  (run store (reqs1 ++ reqs2)).1 = (run (run store reqs1).1 reqs2).1.
Proof.
  revert store. induction reqs1 as [|req reqs1 IH]; intros store; [done|].
  rewrite <- app_comm_cons, !run_cons_store. apply IH.
Qed.

Lemma issued_cons_handle store req trace :
  issued ((req, (handle store req).2) :: trace)
  = match req with
    | PostItem _ => nextId store :: issued trace
    | _ => issued trace
    end.
Proof. by destruct req. Qed.

Lemma handle_nextId_post store req :
  nextId (handle store req).1
  = if is_post req then nextId store + 1 else nextId store.
Proof.
  destruct req as [| |id|name|id name|id]; simpl; try done.
  - unfold get_item. by destruct (find _ _).
  - unfold put_item. by destruct (_ =? _).
  - unfold delete_item. by destruct (_ =? _)%nat.
Qed.

Lemma run_nextId store reqs : nextId store ≤ nextId (run store reqs).1.
Proof.
  revert store. induction reqs as [|req reqs IH]; intros store; [simpl; lia|].
  rewrite run_cons_store. pose proof (handle_nextId store req).
  specialize (IH (handle store req).1). lia.
Qed.

Lemma run_inv store reqs : store_inv store → store_inv (run store reqs).1.
Proof.
  revert store. induction reqs as [|req reqs IH]; intros store H; [done|].
  rewrite run_cons_store. by apply IH, handle_inv.
Qed.

(** Every id handed out during a run lies between the counter before the
    run and the counter after it. *)
Lemma run_issued_bounds store reqs :
  Forall (λ i, nextId store ≤ i < nextId (run store reqs).1)
         (issued (run store reqs).2).
Proof.
  revert store. induction reqs as [|req reqs IH]; intros store; [constructor|].
  rewrite run_cons_store, run_cons_trace, issued_cons_handle.
  specialize (IH (handle store req).1).
  pose proof (run_nextId (handle store req).1 reqs) as Hmono.
  rewrite handle_nextId_post in IH, Hmono.
  destruct req; simpl in *;
    try (eapply Forall_impl; [exact IH|]; simpl; intros; lia).
  constructor; [lia|]. eapply Forall_impl; [exact IH|]. simpl. intros; lia.
Qed.

Lemma run_issued_sorted store reqs :
  StronglySorted Z.lt (issued (run store reqs).2).
Proof.
  revert store. induction reqs as [|req reqs IH]; intros store; [constructor|].
  rewrite run_cons_trace, issued_cons_handle.
  pose proof (run_issued_bounds (handle store req).1 reqs) as Hb.
  rewrite handle_nextId_post in Hb.
  destruct req; simpl in *; try apply IH.
  constructor; [apply IH|]. eapply Forall_impl; [exact Hb|]. simpl. intros; lia.
Qed.

Lemma run_issued_length store reqs :
  length (issued (run store reqs).2) = length (List.filter is_post reqs).
Proof.
  revert store. induction reqs as [|req reqs IH]; intros store; [done|].
  rewrite run_cons_trace, issued_cons_handle.
  destruct req; simpl; by rewrite IH.
Qed.

Lemma StronglySorted_lt_NoDup (l : list Z) : StronglySorted Z.lt l → NoDup l.
Proof.
  induction 1 as [|x l _ IH Hx]; constructor; [|done].
  rewrite Forall_forall in Hx. intros H%Hx. lia.
Qed.

Lemma init_inv : store_inv init.
Proof. split; [apply NoDup_nil_2 | constructor]. Qed.

Lemma reachable_inv store : reachable store → store_inv store.
Proof. intros [reqs <-]. apply run_inv, init_inv. Qed.

Lemma reachable_run store reqs : reachable store → reachable (run store reqs).1.
Proof.
  intros [reqs0 <-]. exists (reqs0 ++ reqs). apply run_app_store.
Qed.

Lemma present_ids id store : present id store ↔ id ∈ ids store.
Proof.
  unfold present, ids. rewrite list_elem_of_fmap. split.
  - intros (i & Hi & <-). by exists i.
  - intros (i & -> & Hi). by exists i.
Qed.

Lemma handle_ids store req x :
  x ∈ ids (handle store req).1 → x ∈ ids store ∨ x = nextId store.
Proof.
  destruct req as [| |id|name|id name|id]; simpl; auto.
  - unfold get_item. destruct (find _ _); auto.
  - unfold ids. simpl. rewrite fmap_app, elem_of_app. simpl.
    rewrite list_elem_of_singleton. auto.
  - destruct (decide (present id store)) as [H|H].
    + destruct (put_item_present store id name H) as (k & old & Hk & <- & _ & ->).
      unfold ids. simpl. rewrite ids_insert_same by done. auto.
    + rewrite put_item_absent by done. auto.
  - intros Hx. left. unfold delete_item, ids in *.
    destruct (_ =? _)%nat; simpl in Hx;
      apply list_elem_of_fmap in Hx as (i & -> & [Hi _]%elem_of_filter_bool);
      by apply list_elem_of_fmap_2.
Qed.

(** The ids of a later store are ids of the earlier one or were handed out
    in between. *)
Lemma run_ids store reqs x :
  x ∈ ids (run store reqs).1 → x ∈ ids store ∨ nextId store ≤ x.
Proof.
  revert store. induction reqs as [|req reqs IH]; intros store; [simpl; auto|].
  rewrite run_cons_store. intros [H|H]%IH.
  - apply handle_ids in H as [H|H]; [auto | right; lia].
  - right. pose proof (handle_nextId store req). lia.
Qed.

(** Once an item of a well-formed store is deleted, its id stays absent. *)
Lemma deleted_stays_absent store id reqs :
  store_inv store → present id store →
  ¬ present id (run (handle store (DeleteItem id)).1 reqs).1.
Proof.
  intros [_ Hlt] Hp Hlater. apply present_ids, run_ids in Hlater as [H|H].
  - by apply present_ids, delete_item_gone in H.
  - rewrite Forall_forall in Hlt. apply present_ids, Hlt in Hp.
    rewrite handle_nextId_post in H. simpl in H. lia.
Qed.

Lemma two_items_reachable : reachable two_items.
Proof. by exists [PostItem "Widget"; PostItem "Bolt"]. Defined.

Lemma two_items_present_1 : present 1 two_items.
Proof. exists (Item.mk 1 "Widget"). split; [left | done]. Defined.

Lemma two_items_absent_7 : ¬ present 7 two_items.
Proof. apply absent_Forall. by repeat constructor. Defined.

(** Reading requests leave the store as it is. *)
Lemma run_reads store reads :
  Forall (λ req, is_read req = true) reads → (run store reads).1 = store.
Proof.
  induction 1 as [|req reads Hreq _ IH]; [done|].
  rewrite run_cons_store.
  destruct req; try discriminate Hreq; simpl; [done..|].
  unfold get_item. by destruct (find _ _).
Qed.

(** *** The two levels agree *)

Lemma Refs_init_contents : Refs.contents Refs.init = Some init.
Proof. reflexivity. Qed.

Lemma Refs_deref_write_items st a :
  Refs.deref (Refs.write_items st a) (Refs.store_items st) = Some a.
Proof. unfold Refs.deref, Refs.write_items. simpl. apply lookup_insert_eq. Qed.

Lemma Refs_fresh_loc st a :
  Refs.deref st (Refs.store_items st) = Some a →
  fresh (dom (Refs.arrays st)) ≠ Refs.store_items st.
Proof.
  intros H E. apply (is_fresh (dom (Refs.arrays st))).
  rewrite E. apply elem_of_dom. by exists a.
Qed.

(** What the [DELETE] handler does to the heap: the filtered array is a
    new one, the array the store held before is left as it was. *)
Lemma Refs_handle_delete st a id :
  Refs.deref st (Refs.store_items st) = Some a →
  let a' := List.filter (id_is_not id) a in
  let st' := {| Refs.arrays := <[fresh (dom (Refs.arrays st)) := a']> (Refs.arrays st);
                Refs.store_items := fresh (dom (Refs.arrays st));
                Refs.store_nextId := Refs.store_nextId st |} in
  Refs.handle st (DeleteItem id)
  = Some (st', if (length a' =? length a)%nat
               then Refs.RNewResponse "Item not found" 404
               else Refs.RNewResponse "Item deleted successfully" 200) ∧
  Refs.deref st' (Refs.store_items st') = Some a' ∧
  Refs.deref st' (Refs.store_items st) = Some a ∧
  Refs.store_items st' ≠ Refs.store_items st.
Proof.
  intros H. simpl. rewrite H. simpl. unfold Refs.deref at 1 2. simpl.
  rewrite lookup_insert_eq. simpl. split_and!.
  - by destruct (_ =? _)%nat.
  - done.
  - unfold Refs.deref. simpl. rewrite lookup_insert_ne; [done|].
    by eapply Refs_fresh_loc.
  - by eapply Refs_fresh_loc.
Qed.

(** Each handler of the second level does to the contents of the store,
    and sends, what the handler of the first level does. *)
Lemma Refs_simulation st store req :
  Refs.contents st = Some store →
  ∃ st' r, Refs.handle st req = Some (st', r) ∧
           Refs.contents st' = Some (handle store req).1 ∧
           Refs.sent st' r = Some (handle store req).2.
Proof.
  unfold Refs.contents. intros H.
  destruct (Refs.deref st (Refs.store_items st)) as [a|] eqn:Ha; [|done].
  injection H as <-.
  destruct req as [| |id|name|id name|id].
  - simpl. eexists _, _. split; [done|]. by rewrite Ha.
  - simpl. eexists _, _. split; [done|]. simpl. by rewrite Ha.
  - simpl. rewrite Ha. simpl. unfold get_item. simpl.
    destruct (find (id_is id) a); eexists _, _; (split; [done|]); by rewrite Ha.
  - simpl. unfold Refs.deref in *. simpl. rewrite Ha. simpl.
    eexists _, _. split; [done|]. simpl. by rewrite lookup_insert_eq.
  - simpl. rewrite Ha. simpl. unfold put_item. simpl.
    destruct (_ =? _).
    + eexists _, _. split; [done|]. by rewrite Ha.
    + rewrite Refs_deref_write_items. simpl.
      eexists _, _. split; [done|]. unfold Refs.deref. simpl.
      rewrite lookup_insert_eq. simpl. split; [done|].
      unfold at_index. by destruct (_ !! _).
  - destruct (Refs_handle_delete st a id Ha) as (-> & Hnew & _ & _).
    eexists _, _. split; [done|]. unfold handle, delete_item. simpl in *.
    rewrite Hnew. simpl. by destruct (Nat.eqb _ _).
Qed.

(** *** The counter along a run *)

Lemma run_nextId_posts store reqs :
  nextId (run store reqs).1
  = nextId store + Z.of_nat (length (List.filter is_post reqs)).
Proof.
  revert store. induction reqs as [|req reqs IH]; intros store; [simpl; lia|].
  rewrite run_cons_store, IH, handle_nextId_post.
  destruct req; simpl; lia.
Qed.

(** On an exact run each [POST] is served with the counter in the exact
    range, and what is left of the run is exact again. *)
Lemma run_exact_cons store req reqs :
  run_exact store (req :: reqs) →
  (is_post req = true → counter_exact (nextId store)) ∧
  run_exact (handle store req).1 reqs.
Proof.
  unfold run_exact, counter_exact. rewrite handle_nextId_post.
  destruct req; simpl; intros [Hlo Hhi]; (split; [intros ?|]); try done; lia.
Qed.

(** The ids handed out on an exact run are values the counter took inside
    the exact range. *)
Lemma run_exact_issued store reqs :
  run_exact store reqs → Forall counter_exact (issued (run store reqs).2).
Proof.
  intros [Hlo Hhi]. eapply Forall_impl; [apply run_issued_bounds|].
  simpl. intros i. rewrite run_nextId_posts. unfold counter_exact. lia.
Qed.

(** ** The claims *)

(** C1.  In every state the application reaches from the initial store, by
    whatever sequence of requests, the ids of the stored items are pairwise
    distinct, and [nextId] is strictly greater than every id in the store
    and than every id a [POST /items] of the run has handed out. *)
Theorem reachable_ids_unique_below_nextId (reqs : list Request) :
  NoDup (ids (run init reqs).1) ∧
  Forall (λ i, i < nextId (run init reqs).1) (ids (run init reqs).1) ∧
  Forall (λ i, i < nextId (run init reqs).1) (issued (run init reqs).2).
Proof.
  destruct (run_inv init reqs init_inv) as [Hnd Hlt].
  split_and!; [done..|].
  eapply Forall_impl; [apply run_issued_bounds|]. simpl. intros; lia.
Qed.

(** C2.  [POST /items] gives the new item the id [nextId], appends the
    item at the end of the sequence, leaving the items already there and
    their order as they were, and returns the created item; it does so in
    every store and for every name, with status 200 and no error outcome.
    [nextId] is incremented by one; this last part is stated for the
    counters on which the increment of the source is exact. *)
Theorem create_assigns_appends_returns (store : Store) (name : string) :
  let newItem := Item.mk (nextId store) name in
  let store' := (handle store (PostItem name)).1 in
  let out := (handle store (PostItem name)).2 in
  out = Plain (VItem newItem) ∧
  respond out = {| status := 200; body := VItem newItem |} ∧
  out ≠ not_found ∧
  (counter_exact (nextId store) → nextId store' = nextId store + 1) ∧
  items store' = items store ++ [newItem] ∧
  length (items store') = S (length (items store)) ∧
  (∀ k i, items store !! k = Some i → items store' !! k = Some i) ∧
  items store' !! length (items store) = Some newItem.
Proof.
  simpl. split_and!; try done.
  - rewrite length_app. simpl. lia.
  - intros k i H. by apply lookup_app_l_Some.
  - by rewrite list_lookup_middle.
Qed.

Lemma create_assigns_appends_returns_witness :
  counter_exact (nextId two_items) ∧
  nextId (handle two_items (PostItem "Nut")).1 = nextId two_items + 1 ∧
  items (handle two_items (PostItem "Nut")).1 = items two_items ++ [Item.mk 3 "Nut"].
Proof.
  assert (counter_exact (nextId two_items)) as H
    by (unfold counter_exact; simpl; lia).
  destruct (create_assigns_appends_returns two_items "Nut")
    as (_ & _ & _ & Hnext & Hitems & _).
  exact (conj H (conj (Hnext H) Hitems)).
Defined.

(** C3.  Whatever the requests served and whatever the store they start
    from, as long as the counter stays in the range where the increment
    of the source is exact, the ids returned by the [POST /items] calls,
    taken in call order, are strictly increasing, hence pairwise distinct;
    there is one of them for each [POST /items] call, and each is a value
    of the counter inside the exact range. *)
Theorem created_ids_strictly_increasing (store : Store) (reqs : list Request) :
  run_exact store reqs →
  StronglySorted Z.lt (issued (run store reqs).2) ∧
  NoDup (issued (run store reqs).2) ∧
  length (issued (run store reqs).2) = length (List.filter is_post reqs) ∧
  Forall counter_exact (issued (run store reqs).2).
Proof.
  intros Hexact. split_and!.
  - apply run_issued_sorted.
  - apply StronglySorted_lt_NoDup, run_issued_sorted.
  - apply run_issued_length.
  - by apply run_exact_issued.
Qed.

Lemma created_ids_strictly_increasing_witness :
  run_exact init [PostItem "Widget"; DeleteItem 1; PostItem "Bolt"; PostItem "Nut"] ∧
  StronglySorted Z.lt
    (issued (run init [PostItem "Widget"; DeleteItem 1; PostItem "Bolt"; PostItem "Nut"]).2) ∧
  issued (run init [PostItem "Widget"; DeleteItem 1; PostItem "Bolt"; PostItem "Nut"]).2
  = [1; 2; 3].
Proof.
  assert (run_exact init [PostItem "Widget"; DeleteItem 1; PostItem "Bolt"; PostItem "Nut"])
    as H by (unfold run_exact; simpl; lia).
  split; [exact H|]. split; [|reflexivity].
  exact (proj1 (created_ids_strictly_increasing init _ H)).
Defined.

(** C4.  When an item with the given id is in the store, [PUT /items/:id]
    replaces that item's name and nothing else: the item found (the first
    one with that id) keeps its id and its position, every other position
    holds what it held, the sequence keeps its length, [nextId] is
    untouched, and the updated item is returned with status 200. *)
Theorem update_changes_only_name (store : Store) (id : Z) (name : string) :
  present id store →
  let store' := (handle store (PutItem id name)).1 in
  let out := (handle store (PutItem id name)).2 in
  ∃ (k : nat) (old : Item.t),
    items store !! k = Some old ∧ Item.id old = id ∧
    (∀ j i, (j < k)%nat → items store !! j = Some i → Item.id i ≠ id) ∧
    items store' !! k = Some (Item.mk (Item.id old) name) ∧
    (∀ j, j ≠ k → items store' !! j = items store !! j) ∧
    length (items store') = length (items store) ∧
    ids store' = ids store ∧
    nextId store' = nextId store ∧
    out = Plain (VItem (Item.mk (Item.id old) name)) ∧
    respond out = {| status := 200; body := VItem (Item.mk (Item.id old) name) |}.
Proof.
  intros H. simpl.
  destruct (put_item_present store id name H) as (k & old & Hk & <- & Hfirst & ->).
  exists k, old. simpl. split_and!; try done.
  - apply list_lookup_insert_eq. by eapply lookup_lt_Some.
  - intros j Hj. by apply list_lookup_insert_ne.
  - apply length_insert.
  - unfold ids. simpl. by apply ids_insert_same.
Qed.

Lemma update_changes_only_name_witness :
  present 1 two_items ∧
  ∃ (k : nat) (old : Item.t),
    items two_items !! k = Some old ∧ Item.id old = 1 ∧
    (∀ j i, (j < k)%nat → items two_items !! j = Some i → Item.id i ≠ 1) ∧
    items (handle two_items (PutItem 1 "Gadget")).1 !! k
    = Some (Item.mk (Item.id old) "Gadget") ∧
    (∀ j, j ≠ k →
       items (handle two_items (PutItem 1 "Gadget")).1 !! j = items two_items !! j) ∧
    length (items (handle two_items (PutItem 1 "Gadget")).1) = length (items two_items) ∧
    ids (handle two_items (PutItem 1 "Gadget")).1 = ids two_items ∧
    nextId (handle two_items (PutItem 1 "Gadget")).1 = nextId two_items ∧
    (handle two_items (PutItem 1 "Gadget")).2
    = Plain (VItem (Item.mk (Item.id old) "Gadget")) ∧
    respond (handle two_items (PutItem 1 "Gadget")).2
    = {| status := 200; body := VItem (Item.mk (Item.id old) "Gadget") |}.
Proof.
  split; [exact two_items_present_1|].
  exact (update_changes_only_name two_items 1 "Gadget" two_items_present_1).
Defined.

(** C5.  In a reachable store that holds an item with the given id,
    [DELETE /items/:id] takes that item out of the sequence, the items
    before and after it staying in order, and leaves [nextId] as it was;
    the listing that follows shows no item with that id, and whatever
    requests are served afterwards, a [POST /items] returns an item whose
    id differs from the deleted one. *)
Theorem delete_removes_and_id_is_not_reused (store : Store) (id : Z) :
  reachable store → present id store →
  let store' := (handle store (DeleteItem id)).1 in
  (handle store (DeleteItem id)).2 = deleted ∧
  (∃ l1 i l2, items store = l1 ++ i :: l2 ∧ Item.id i = id ∧
              items store' = l1 ++ l2) ∧
  nextId store' = nextId store ∧
  (handle store' GetItems).2 = Plain (VItems (items store')) ∧
  ¬ present id store' ∧
  ∀ (reqs : list Request) (name : string),
    let later := (run store' reqs).1 in
    ∃ i, (handle later (PostItem name)).2 = Plain (VItem i) ∧ Item.id i ≠ id.
Proof.
  intros Hr Hp. pose proof (reachable_inv _ Hr) as [Hnd Hlt]. simpl.
  rewrite (delete_item_present _ _ Hp). simpl. split_and!; try done.
  - destruct Hp as (i & Hi & Hid).
    apply list_elem_of_split in Hi as (l1 & l2 & E).
    exists l1, i, l2. split_and!; [done..|].
    unfold ids in Hnd. rewrite E in Hnd |- *.
    rewrite fmap_app, fmap_cons in Hnd.
    apply NoDup_app in Hnd as (_ & H1 & [H2 _]%NoDup_cons).
    rewrite List.filter_app. simpl.
    replace (id_is_not id i) with false
      by (symmetry; apply not_true_iff_false; by intros H%id_is_not_true).
    f_equal; apply filter_all, Forall_forall; intros j Hj; apply id_is_not_true.
    + intros Hj'. apply (H1 (Item.id j)); [by apply list_elem_of_fmap_2|].
      rewrite Hj', <- Hid. left.
    + intros Hj'. apply H2. rewrite Hid, <- Hj'.
      by apply list_elem_of_fmap_2.
  - intros (j & [_ Hj%id_is_not_true]%elem_of_filter_bool & Hid). done.
  - intros reqs name. eexists. split; [reflexivity|]. simpl.
    pose proof (run_nextId
      {| items := List.filter (id_is_not id) (items store); nextId := nextId store |}
      reqs) as Hmono. simpl in Hmono.
    rewrite Forall_forall in Hlt. apply present_ids, Hlt in Hp. lia.
Qed.

Lemma delete_removes_and_id_is_not_reused_witness :
  reachable two_items ∧ present 1 two_items ∧
  (handle two_items (DeleteItem 1)).2 = deleted ∧
  (∃ l1 i l2, items two_items = l1 ++ i :: l2 ∧ Item.id i = 1 ∧
              items (handle two_items (DeleteItem 1)).1 = l1 ++ l2) ∧
  nextId (handle two_items (DeleteItem 1)).1 = nextId two_items ∧
  (handle (handle two_items (DeleteItem 1)).1 GetItems).2
  = Plain (VItems (items (handle two_items (DeleteItem 1)).1)) ∧
  ¬ present 1 (handle two_items (DeleteItem 1)).1 ∧
  ∀ (reqs : list Request) (name : string),
    ∃ i, (handle (run (handle two_items (DeleteItem 1)).1 reqs).1 (PostItem name)).2
         = Plain (VItem i) ∧ Item.id i ≠ 1.
Proof.
  split; [exact two_items_reachable|]. split; [exact two_items_present_1|].
  exact (delete_removes_and_id_is_not_reused two_items 1
           two_items_reachable two_items_present_1).
Defined.

(** C6.  When no item of the store has the given id, each of
    [GET /items/:id], [PUT /items/:id] and [DELETE /items/:id] answers 404
    with the text "Item not found"; when an item with that id is present,
    none of them does (each answers 200).  The first part covers the ids
    that were handed out and deleted earlier: after the deletion of an item
    of a reachable store, and whatever is served afterwards, the three
    requests on that id answer 404. *)
Theorem not_found_exactly_when_absent (store : Store) (id : Z) (name : string) :
  (¬ present id store →
     answer store (GetItem id) = not_found_response ∧
     answer store (PutItem id name) = not_found_response ∧
     answer store (DeleteItem id) = not_found_response) ∧
  (present id store →
     (handle store (GetItem id)).2 ≠ not_found ∧
     (handle store (PutItem id name)).2 ≠ not_found ∧
     (handle store (DeleteItem id)).2 ≠ not_found ∧
     status (answer store (GetItem id)) = 200 ∧
     status (answer store (PutItem id name)) = 200 ∧
     status (answer store (DeleteItem id)) = 200) ∧
  (reachable store → present id store →
     ∀ reqs : list Request,
       let later := (run (handle store (DeleteItem id)).1 reqs).1 in
       answer later (GetItem id) = not_found_response ∧
       answer later (PutItem id name) = not_found_response ∧
       answer later (DeleteItem id) = not_found_response).
Proof.
  assert (∀ s, ¬ present id s →
     answer s (GetItem id) = not_found_response ∧
     answer s (PutItem id name) = not_found_response ∧
     answer s (DeleteItem id) = not_found_response) as Habsent.
  { intros s H. unfold answer. simpl.
    by rewrite get_item_absent, put_item_absent, delete_item_absent. }
  split_and!.
  - apply Habsent.
  - intros H. unfold answer. simpl.
    destruct (get_item_present store id H) as (i & -> & _).
    destruct (put_item_present store id name H) as (k & old & _ & _ & _ & ->).
    rewrite (delete_item_present store id H). done.
  - intros Hr Hp reqs. apply Habsent, deleted_stays_absent; [|done].
    by apply reachable_inv.
Qed.

Lemma not_found_exactly_when_absent_witness :
  (¬ present 7 two_items ∧ present 1 two_items ∧ reachable two_items) ∧
  (answer two_items (GetItem 7) = not_found_response ∧
   answer two_items (PutItem 7 "Gadget") = not_found_response ∧
   answer two_items (DeleteItem 7) = not_found_response) ∧
  (status (answer two_items (GetItem 1)) = 200 ∧
   status (answer two_items (PutItem 1 "Gadget")) = 200 ∧
   status (answer two_items (DeleteItem 1)) = 200) ∧
  (∀ reqs : list Request,
     answer (run (handle two_items (DeleteItem 1)).1 reqs).1 (GetItem 1)
     = not_found_response).
Proof.
  split; [exact (conj two_items_absent_7 (conj two_items_present_1 two_items_reachable))|].
  split; [exact (proj1 (not_found_exactly_when_absent two_items 7 "Gadget")
                   two_items_absent_7)|].
  destruct (not_found_exactly_when_absent two_items 1 "Gadget") as (_ & Hpresent & Hlater).
  split.
  - destruct (Hpresent two_items_present_1) as (_ & _ & _ & H). exact H.
  - intros reqs.
    exact (proj1 (Hlater two_items_reachable two_items_present_1 reqs)).
Defined.

(** C7.  Two [GET /items] calls with nothing but reading requests served
    between them (in particular: nothing at all) return identical
    sequences, the items of the store in their order, and [GET /items]
    leaves the store (its items and [nextId]) as it was. *)
Theorem list_twice_identical (store : Store) (reads : list Request) :
  Forall (λ req, is_read req = true) reads →
  let first := handle store GetItems in
  let between := run first.1 reads in
  let second := handle between.1 GetItems in
  first.2 = second.2 ∧
  first.2 = Plain (VItems (items store)) ∧
  respond first.2 = {| status := 200; body := VItems (items store) |} ∧
  first.1 = store ∧ between.1 = store ∧ second.1 = store ∧
  items first.1 = items store ∧ nextId first.1 = nextId store.
Proof.
  intros H. simpl. by rewrite (run_reads store reads H).
Qed.

Lemma list_twice_identical_witness :
  Forall (λ req, is_read req = true) [GetRoot; GetItem 1] ∧
  (handle two_items GetItems).2
  = (handle (run (handle two_items GetItems).1 [GetRoot; GetItem 1]).1 GetItems).2 ∧
  (handle two_items GetItems).1 = two_items.
Proof.
  assert (Forall (λ req, is_read req = true) [GetRoot; GetItem 1]) as H
    by (repeat constructor).
  split; [exact H|].
  destruct (list_twice_identical two_items [GetRoot; GetItem 1] H)
    as (Hsame & _ & _ & Hstore & _).
  exact (conj Hsame Hstore).
Defined.

(** C9, as the specification has it, instantiated on the initial store:
    the body of [GET /] would be a text saying "running".  It is not. *)
Lemma root_body_is_not_a_running_text :
  ¬ ∃ text : string,
      body (answer init GetRoot) = VText text ∧ occurs_in "running" text = true.
Proof.
  intros (text & [= <-] & H). vm_compute in H. discriminate H.
Qed.

(** C9, amended.  [GET /] answers 200 with the fixed text
    "ElysiaJS CRUD In-Memory Example", the same on every store, and leaves
    the store as it was. *)
Theorem root_answers_fixed_banner (store : Store) :
  answer store GetRoot
  = {| status := 200; body := VText "ElysiaJS CRUD In-Memory Example" |} ∧
  (∀ other : Store, (handle other GetRoot).2 = (handle store GetRoot).2) ∧
  (handle store GetRoot).1 = store.
Proof. by simpl. Qed.

(** C10.  When no item of the store has the given id, the 404 outcomes of
    [GET /items/:id], [PUT /items/:id] and [DELETE /items/:id] leave the
    store as it was: the same items in the same order, the same [nextId]. *)
Theorem not_found_leaves_store_unchanged (store : Store) (id : Z) (name : string) :
  ¬ present id store →
  handle store (GetItem id) = (store, not_found) ∧
  handle store (PutItem id name) = (store, not_found) ∧
  handle store (DeleteItem id) = (store, not_found) ∧
  items (handle store (DeleteItem id)).1 = items store ∧
  nextId (handle store (DeleteItem id)).1 = nextId store.
Proof.
  intros H. simpl.
  by rewrite get_item_absent, put_item_absent, delete_item_absent.
Qed.

Lemma not_found_leaves_store_unchanged_witness :
  ¬ present 7 two_items ∧
  handle two_items (GetItem 7) = (two_items, not_found) ∧
  handle two_items (PutItem 7 "Gadget") = (two_items, not_found) ∧
  handle two_items (DeleteItem 7) = (two_items, not_found) ∧
  items (handle two_items (DeleteItem 7)).1 = items two_items ∧
  nextId (handle two_items (DeleteItem 7)).1 = nextId two_items.
Proof.
  split; [exact two_items_absent_7|].
  exact (not_found_leaves_store_unchanged two_items 7 "Gadget" two_items_absent_7).
Defined.

(** C8, as the specification has it, on the initial store: the array that
    [GET /items] returns would be unaffected by a later request.  The
    handler returns the very array the store holds, and the [POST /items]
    that follows pushes onto it. *)
Lemma list_result_altered_by_later_create :
  Refs.handle Refs.init GetItems
  = Some (Refs.init, Refs.RPlain (Refs.RArray Refs.first_loc)) ∧
  Refs.store_items Refs.init = Refs.first_loc ∧
  Refs.deref Refs.init Refs.first_loc = Some [] ∧
  ∃ st', Refs.handle Refs.init (PostItem "Widget")
         = Some (st', Refs.RPlain (Refs.RItem (Item.mk 1 "Widget"))) ∧
         Refs.deref st' Refs.first_loc = Some [Item.mk 1 "Widget"] ∧
         Refs.deref st' Refs.first_loc ≠ Refs.deref Refs.init Refs.first_loc.
Proof.
  split_and!; [done..|]. eexists. split; [reflexivity|]. by split.
Qed.

(** C8, amended.  [GET /items] returns the array the store holds, by
    reference and not as a copy; when it is sent it holds the full ordered
    sequence of items.  A later [POST /items] or [PUT /items/:id] changes
    that same array, so the change shows through the reference returned
    before; [DELETE /items/:id] puts a new array into the store and leaves
    the array returned before as it was. *)
Theorem list_returns_the_store_array (st : Refs.State) (a : list Item.t) :
  Refs.deref st (Refs.store_items st) = Some a →
  let l := Refs.store_items st in
  let store := {| items := a; nextId := Refs.store_nextId st |} in
  Refs.handle st GetItems = Some (st, Refs.RPlain (Refs.RArray l)) ∧
  Refs.sent st (Refs.RPlain (Refs.RArray l)) = Some (Plain (VItems a)) ∧
  (∀ name, ∃ st' r,
     Refs.handle st (PostItem name) = Some (st', r) ∧
     Refs.store_items st' = l ∧
     Refs.deref st' l = Some (a ++ [Item.mk (Refs.store_nextId st) name])) ∧
  (∀ id name, ∃ st' r,
     Refs.handle st (PutItem id name) = Some (st', r) ∧
     Refs.store_items st' = l ∧
     Refs.deref st' l = Some (items (handle store (PutItem id name)).1)) ∧
  (∀ id, ∃ st' r,
     Refs.handle st (DeleteItem id) = Some (st', r) ∧
     Refs.store_items st' ≠ l ∧
     Refs.deref st' l = Some a ∧
     Refs.deref st' (Refs.store_items st') = Some (List.filter (id_is_not id) a)).
Proof.
  intros Ha. simpl. split_and!.
  - done.
  - by rewrite Ha.
  - intros name. unfold Refs.deref in *. simpl. rewrite Ha. simpl.
    eexists _, _. split; [done|]. simpl. by rewrite lookup_insert_eq.
  - intros id name. rewrite Ha. simpl. unfold put_item. simpl.
    destruct (_ =? _).
    + eexists _, _. split; [done|]. by rewrite Ha.
    + rewrite Refs_deref_write_items. simpl.
      eexists _, _. split; [done|]. simpl. split; [done|].
      apply Refs_deref_write_items.
  - intros id. destruct (Refs_handle_delete st a id Ha) as (E & Hnew & Hold & Hne).
    eexists _, _. split; [exact E|]. done.
Qed.

Lemma list_returns_the_store_array_witness :
  Refs.deref Refs.init (Refs.store_items Refs.init) = Some [] ∧
  Refs.handle Refs.init GetItems
  = Some (Refs.init, Refs.RPlain (Refs.RArray (Refs.store_items Refs.init))) ∧
  (∀ name, ∃ st' r,
     Refs.handle Refs.init (PostItem name) = Some (st', r) ∧
     Refs.store_items st' = Refs.store_items Refs.init ∧
     Refs.deref st' (Refs.store_items Refs.init) = Some [Item.mk 1 name]) ∧
  (∀ id, ∃ st' r,
     Refs.handle Refs.init (DeleteItem id) = Some (st', r) ∧
     Refs.store_items st' ≠ Refs.store_items Refs.init ∧
     Refs.deref st' (Refs.store_items Refs.init) = Some []).
Proof.
  split; [reflexivity|].
  destruct (list_returns_the_store_array Refs.init [] eq_refl)
    as (Hlist & _ & Hpost & _ & Hdelete).
  split; [exact Hlist|]. split; [exact Hpost|].
  intros id. destruct (Hdelete id) as (st' & r & E & Hne & Hold & _).
  by exists st', r.
Defined.

(** ** Further properties of the handlers *)

(** *** First matches *)

Section first_match.
Context {A : Type}.
Implicit Types (p : A → bool) (l : list A).

(** The element at the first position that satisfies the predicate is
    what [find] returns and where [findIndex] points. *)
Lemma find_first p l (k : nat) x :
  l !! k = Some x → p x = true →
  (∀ j y, (j < k)%nat → l !! j = Some y → p y = false) →
  find p l = Some x.
Proof.
  unfold find. revert k. induction l as [|y l IH]; intros k Hk Hx Hfirst; [done|].
  destruct k as [|k]; simpl in *.
  - injection Hk as ->. by rewrite Hx.
  - rewrite (Hfirst 0%nat y); [|lia|done].
    apply (IH k); [done..|]. intros j z Hj Hz. apply (Hfirst (S j)); [lia|done].
Qed.

Lemma findIndex_first p l (k : nat) x :
  l !! k = Some x → p x = true →
  (∀ j y, (j < k)%nat → l !! j = Some y → p y = false) →
  findIndex p l = Z.of_nat k.
Proof.
  revert k. induction l as [|y l IH]; intros k Hk Hx Hfirst; [done|].
  destruct k as [|k]; simpl in *.
  - injection Hk as ->. by rewrite Hx.
  - rewrite (Hfirst 0%nat y); [|lia|done].
    rewrite (IH k); [|done..|].
    + destruct (Z.eqb_spec (Z.of_nat k) (-1)); lia.
    + intros j z Hj Hz. apply (Hfirst (S j)); [lia|done].
Qed.

Lemma find_app p l1 l2 :
  find p (l1 ++ l2) = match find p l1 with Some x => Some x | None => find p l2 end.
Proof.
  unfold find. induction l1 as [|y l1 IH]; simpl; [done|]. by destruct (p y).
Qed.

Lemma find_insert_other p l (k : nat) old x :
  l !! k = Some old → p old = false → p x = false →
  find p (<[k := x]> l) = find p l.
Proof.
  unfold find. revert k. induction l as [|y l IH]; intros k Hk Hold Hx; [done|].
  destruct k as [|k]; simpl in *.
  - injection Hk as ->. by rewrite Hold, Hx.
  - destruct (p y); [done|]. by apply IH.
Qed.

Lemma find_filter_other p q l :
  (∀ x, p x = true → q x = true) →
  find p (List.filter q l) = find p l.
Proof.
  unfold find. intros H. induction l as [|y l IH]; simpl; [done|].
  destruct (q y) eqn:Hq; simpl.
  - by destruct (p y).
  - destruct (p y) eqn:Hp; [|done]. apply H in Hp. congruence.
Qed.

Lemma sublist_filter_bool p l : sublist (List.filter p l) l.
Proof.
  induction l as [|y l IH]; simpl; [constructor|].
  destruct (p y); by constructor.
Qed.
End first_match.


Lemma inv_absent_nextId store : store_inv store → ¬ present (nextId store) store.
Proof.
  intros [_ Hlt] H%present_ids. rewrite Forall_forall in Hlt. apply Hlt in H. lia.
Qed.



(** X2.  In a store that satisfies the invariant (every reachable store
    does), the item a [POST /items] returns is what a [GET /items/:id] on
    the returned id gives right afterwards. *)
Theorem create_then_get (store : Store) (name : string) :
  store_inv store →
  let store' := (handle store (PostItem name)).1 in
  let created := Item.mk (nextId store) name in
  (handle store (PostItem name)).2 = Plain (VItem created) ∧
  handle store' (GetItem (Item.id created)) = (store', Plain (VItem created)).
Proof.
  intros Hinv. simpl. split; [done|]. unfold get_item. simpl.
  rewrite find_app.
  apply inv_absent_nextId, absent_Forall, find_absent in Hinv. rewrite Hinv.
  unfold find, id_is. simpl. by rewrite Z.eqb_refl.
Qed.

Lemma two_items_inv : store_inv two_items.
Proof. apply reachable_inv, two_items_reachable. Defined.

Lemma create_then_get_witness :
  store_inv two_items ∧
  handle (handle two_items (PostItem "Nut")).1 (GetItem 3)
  = ((handle two_items (PostItem "Nut")).1, Plain (VItem (Item.mk 3 "Nut"))).
Proof.
  split; [exact two_items_inv|].
  exact (proj2 (create_then_get two_items "Nut" two_items_inv)).
Defined.

(** X3.  After a [PUT /items/:id] on an id that is in the store, a
    [GET /items/:id] on that id returns the item with the new name. *)
Theorem update_then_get (store : Store) (id : Z) (name : string) :
  present id store →
  let store' := (handle store (PutItem id name)).1 in
  handle store' (GetItem id) = (store', Plain (VItem (Item.mk id name))).
Proof.
  intros H. simpl.
  destruct (put_item_present store id name H) as (k & old & Hk & Hid & Hfirst & ->).
  simpl. unfold get_item. simpl.
  rewrite (find_first _ _ k (Item.mk id name)); [done| | |].
  - apply list_lookup_insert_eq. by eapply lookup_lt_Some.
  - by apply id_is_true.
  - intros j y Hj Hy. rewrite list_lookup_insert_ne in Hy by lia.
    apply id_is_false. by eapply Hfirst.
Qed.

Lemma update_then_get_witness :
  present 1 two_items ∧
  handle (handle two_items (PutItem 1 "Gadget")).1 (GetItem 1)
  = ((handle two_items (PutItem 1 "Gadget")).1, Plain (VItem (Item.mk 1 "Gadget"))).
Proof.
  split; [exact two_items_present_1|].
  exact (update_then_get two_items 1 "Gadget" two_items_present_1).
Defined.

(** X4.  A write that concerns one id does not change what
    [GET /items/:id] returns for another id: this holds for
    [PUT /items/:id] and [DELETE /items/:id] on a different id, and for
    [POST /items] when the other id is not the one about to be handed
    out. *)
Theorem writes_leave_other_ids_alone (store : Store) (id id' : Z) (name : string) :
  id' ≠ id →
  (handle (handle store (PutItem id name)).1 (GetItem id')).2
  = (handle store (GetItem id')).2 ∧
  (handle (handle store (DeleteItem id)).1 (GetItem id')).2
  = (handle store (GetItem id')).2 ∧
  (id' ≠ nextId store →
   (handle (handle store (PostItem name)).1 (GetItem id')).2
   = (handle store (GetItem id')).2).
Proof.
  intros Hne.
  assert (∀ l1 l2, find (id_is id') l1 = find (id_is id') l2 →
            ∀ n1 n2, (get_item (mkStore l1 n1) id').2 = (get_item (mkStore l2 n2) id').2)
    as Hget.
  { intros l1 l2 E n1 n2. unfold get_item. simpl. rewrite E.
    by destruct (find (id_is id') l2). }
  destruct store as [l n]. split_and!.
  - destruct (decide (present id (mkStore l n))) as [H|H].
    + destruct (put_item_present _ id name H) as (k & old & Hk & Hid & _ & E).
      simpl in *. rewrite E. simpl. apply Hget.
      apply (find_insert_other _ _ _ old); [done| |].
      * apply id_is_false. congruence.
      * apply id_is_false. simpl. congruence.
    + simpl. by rewrite put_item_absent.
  - simpl. unfold delete_item. simpl.
    destruct (Nat.eqb _ _); simpl; apply Hget; apply find_filter_other;
      intros x Hx%id_is_true; apply id_is_not_true; congruence.
  - intros Hnext. simpl. apply Hget. rewrite find_app.
    destruct (find (id_is id') l); [done|].
    unfold find, id_is. simpl. by destruct (Z.eqb_spec n id').
Qed.

Lemma writes_leave_other_ids_alone_witness :
  (2:Z) ≠ 1 ∧
  (handle (handle two_items (PutItem 1 "Gadget")).1 (GetItem 2)).2
  = (handle two_items (GetItem 2)).2 ∧
  (handle (handle two_items (DeleteItem 1)).1 (GetItem 2)).2
  = (handle two_items (GetItem 2)).2 ∧
  (handle (handle two_items (PostItem "Gadget")).1 (GetItem 2)).2
  = (handle two_items (GetItem 2)).2.
Proof.
  assert ((2:Z) ≠ 1) as Hne by lia.
  split; [exact Hne|].
  destruct (writes_leave_other_ids_alone two_items 1 2 "Gadget" Hne)
    as (Hput & Hdel & Hpost).
  split; [exact Hput|]. split; [exact Hdel|]. apply Hpost. simpl. lia.
Defined.

(** X5.  After a [DELETE /items/:id], whatever the store and whether or
    not something was deleted, the store holds exactly the items of
    before whose id differs, in their order (the sequence of before,
    filtered), with [nextId] as before; a second [DELETE] and a [GET] on
    that id answer "Item not found" and leave the store as the first
    [DELETE] left it. *)
Theorem delete_twice (store : Store) (id : Z) :
  let store' := (handle store (DeleteItem id)).1 in
  items store' = List.filter (λ i, negb (Item.id i =? id)) (items store) ∧
  (∀ i, i ∈ items store' ↔ i ∈ items store ∧ Item.id i ≠ id) ∧
  sublist (items store') (items store) ∧
  nextId store' = nextId store ∧
  handle store' (DeleteItem id) = (store', not_found) ∧
  handle store' (GetItem id) = (store', not_found).
Proof.
  pose proof (delete_item_gone store id) as Hgone.
  assert (items (handle store (DeleteItem id)).1
          = List.filter (id_is_not id) (items store)) as E
    by (simpl; unfold delete_item; by destruct (Nat.eqb _ _)).
  simpl in *. split_and!.
  - exact E.
  - intros i. rewrite E, elem_of_filter_bool. by rewrite id_is_not_true.
  - rewrite E. apply sublist_filter_bool.
  - unfold delete_item. by destruct (Nat.eqb _ _).
  - by apply delete_item_absent.
  - by apply get_item_absent.
Qed.

(** X6.  [PUT /items/:id] is idempotent: repeating the request with the
    same id and name returns what the first one returned and leaves the
    store as the first one left it. *)
Theorem update_twice (store : Store) (id : Z) (name : string) :
  let first := handle store (PutItem id name) in
  handle first.1 (PutItem id name) = first.
Proof.
  simpl. destruct (decide (present id store)) as [H|H].
  - destruct (put_item_present store id name H) as (k & old & Hk & Hid & Hfirst & ->).
    simpl. unfold put_item. simpl.
    assert (k < length (items store))%nat as Hlen by (by eapply lookup_lt_Some).
    rewrite (findIndex_first _ _ k (Item.mk id name)).
    + destruct (Z.eqb_spec (Z.of_nat k) (-1)); [lia|].
      rewrite Nat2Z.id, list_insert_insert_eq. unfold at_index. simpl.
      by rewrite ?Nat2Z.id, list_lookup_insert_eq.
    + by apply list_lookup_insert_eq.
    + by apply id_is_true.
    + intros j y Hj Hy. rewrite list_lookup_insert_ne in Hy by lia.
      apply id_is_false. by eapply Hfirst.
  - rewrite (put_item_absent store id name H). simpl.
    by rewrite (put_item_absent store id name H).
Qed.

(** X7.  In a store that satisfies the invariant and whose counter is in
    the range where the increment of the source is exact, deleting the
    item a [POST /items] has just created gives back the items of before
    the [POST]; only [nextId] keeps the increment. *)
Theorem create_then_delete (store : Store) (name : string) :
  store_inv store →
  counter_exact (nextId store) →
  let store' := (handle store (PostItem name)).1 in
  handle store' (DeleteItem (nextId store))
  = ({| items := items store; nextId := nextId store + 1 |}, deleted).
Proof.
  intros Hinv _.
  assert (List.filter (id_is_not (nextId store))
            (items store ++ [Item.mk (nextId store) name]) = items store) as E.
  { rewrite List.filter_app, filter_all.
    - simpl. unfold id_is_not. simpl. rewrite Z.eqb_refl. simpl. apply app_nil_r.
    - apply inv_absent_nextId, absent_Forall in Hinv.
      eapply Forall_impl; [exact Hinv|]. intros i Hi. simpl in Hi.
      apply id_is_not_true. by apply id_is_false. }
  simpl. unfold delete_item. simpl. rewrite E, length_app. simpl.
  destruct (Nat.eqb_spec (length (items store)) (length (items store) + 1));
    [lia|done].
Qed.

Lemma create_then_delete_witness :
  store_inv two_items ∧ counter_exact (nextId two_items) ∧
  handle (handle two_items (PostItem "Nut")).1 (DeleteItem 3)
  = ({| items := items two_items; nextId := 4 |}, deleted).
Proof.
  assert (counter_exact (nextId two_items)) as H
    by (unfold counter_exact; simpl; lia).
  split; [exact two_items_inv|]. split; [exact H|].
  exact (create_then_delete two_items "Nut" two_items_inv H).
Defined.

(** *** Counting and ordering over runs *)

Lemma get_item_store store id : (get_item store id).1 = store.
Proof. unfold get_item. by destruct (find _ _). Qed.

Lemma put_item_ids store id name : ids (put_item store id name).1 = ids store.
Proof.
  destruct (decide (present id store)) as [H|H].
  - destruct (put_item_present store id name H) as (k & old & Hk & <- & _ & ->).
    unfold ids. simpl. by apply ids_insert_same.
  - by rewrite put_item_absent.
Qed.

Lemma delete_item_ids store id :
  ids (delete_item store id).1 = Item.id <$> List.filter (id_is_not id) (items store).
Proof. unfold delete_item, ids. by destruct (Nat.eqb _ _). Qed.

Lemma removed_cons_handle store req trace :
  removed ((req, (handle store req).2) :: trace)
  = match req with
    | DeleteItem id =>
        if decide (present id store) then id :: removed trace else removed trace
    | _ => removed trace
    end.
Proof.
  destruct req as [| |id|name|id name|id]; try done. simpl.
  destruct (decide (present id store)) as [H|H].
  - by rewrite (delete_item_present store id H).
  - by rewrite (delete_item_absent store id H).
Qed.

Lemma StronglySorted_ids_filter p (l : list Item.t) :
  StronglySorted Z.lt (Item.id <$> l) →
  StronglySorted Z.lt (Item.id <$> List.filter p l).
Proof.
  induction l as [|i l IH]; simpl; [done|].
  intros [Hl Hi]%StronglySorted_inv. destruct (p i); simpl; [|by apply IH].
  constructor; [by apply IH|]. by apply Forall_ids_filter.
Qed.

Lemma StronglySorted_snoc (l : list Z) n :
  StronglySorted Z.lt l → Forall (λ i, i < n) l → StronglySorted Z.lt (l ++ [n]).
Proof.
  induction 1 as [|x l _ IH Hx]; intros Hn; simpl.
  - repeat constructor.
  - apply Forall_cons in Hn as [Hxn Hn]. constructor; [by apply IH|].
    apply Forall_app. split; [done|]. by apply Forall_singleton.
Qed.

(** The ids of the store stay in increasing order and between a lower
    bound and [nextId]. *)
Lemma handle_sorted_bounds lo store req :
  lo ≤ nextId store →
  StronglySorted Z.lt (ids store) →
  Forall (λ i, lo ≤ i < nextId store) (ids store) →
  StronglySorted Z.lt (ids (handle store req).1) ∧
  Forall (λ i, lo ≤ i < nextId (handle store req).1) (ids (handle store req).1).
Proof.
  intros Hlo Hs Hb. destruct req as [| |id|name|id name|id]; simpl; try done.
  - by rewrite get_item_store.
  - unfold ids in *. simpl. rewrite fmap_app. simpl. split.
    + apply StronglySorted_snoc; [done|].
      eapply Forall_impl; [exact Hb|]. simpl. intros; lia.
    + apply Forall_app. split.
      * eapply Forall_impl; [exact Hb|]. simpl. intros; lia.
      * apply Forall_singleton. lia.
  - rewrite put_item_ids.
    pose proof (handle_nextId_post store (PutItem id name)) as E. simpl in E.
    by rewrite E.
  - rewrite delete_item_ids.
    pose proof (handle_nextId_post store (DeleteItem id)) as E. simpl in E.
    rewrite E. split; [by apply StronglySorted_ids_filter|].
    by apply Forall_ids_filter.
Qed.

Lemma run_sorted_bounds lo store reqs :
  lo ≤ nextId store →
  StronglySorted Z.lt (ids store) →
  Forall (λ i, lo ≤ i < nextId store) (ids store) →
  StronglySorted Z.lt (ids (run store reqs).1) ∧
  Forall (λ i, lo ≤ i < nextId (run store reqs).1) (ids (run store reqs).1).
Proof.
  revert store. induction reqs as [|req reqs IH]; intros store Hlo Hs Hb; [done|].
  rewrite run_cons_store.
  destruct (handle_sorted_bounds lo store req Hlo Hs Hb) as [Hs' Hb'].
  apply IH; [|done..]. pose proof (handle_nextId store req). lia.
Qed.

Lemma reachable_bounds store :
  reachable store → Forall (λ i, 1 ≤ i < nextId store) (ids store).
Proof.
  intros [reqs <-]. apply (run_sorted_bounds 1 init reqs); simpl; [lia| |];
    constructor.
Qed.

(** X8.  Over a run that keeps the counter in the range where the
    increment of the source is exact, [nextId] grows by the number of
    [POST /items] requests served, and the ids these were given are the
    consecutive numbers from the [nextId] of the start on, in call order:
    the k-th [POST] after start-up gets id k. *)
Theorem ids_are_handed_out_consecutively (store : Store) (reqs : list Request) :
  run_exact store reqs →
  let n := Z.of_nat (length (List.filter is_post reqs)) in
  nextId (run store reqs).1 = nextId store + n ∧
  issued (run store reqs).2 = seqZ (nextId store) n ∧
  Forall counter_exact (issued (run store reqs).2).
Proof.
  intros Hexact. simpl. split_and!.
  - apply run_nextId_posts.
  - clear Hexact. revert store. induction reqs as [|req reqs IH]; intros store; [done|].
    rewrite run_cons_trace, issued_cons_handle, IH, handle_nextId_post.
    destruct req; simpl; try done.
    rewrite (seqZ_cons (nextId store)) by lia. do 2 f_equal; lia.
  - by apply run_exact_issued.
Qed.

Lemma ids_are_handed_out_consecutively_witness :
  run_exact init [PostItem "Widget"; DeleteItem 1; PostItem "Bolt"; PostItem "Nut"] ∧
  nextId (run init [PostItem "Widget"; DeleteItem 1; PostItem "Bolt"; PostItem "Nut"]).1
  = 4 ∧
  issued (run init [PostItem "Widget"; DeleteItem 1; PostItem "Bolt"; PostItem "Nut"]).2
  = seqZ 1 3.
Proof.
  assert (run_exact init [PostItem "Widget"; DeleteItem 1; PostItem "Bolt"; PostItem "Nut"])
    as H by (unfold run_exact; simpl; lia).
  split; [exact H|].
  destruct (ids_are_handed_out_consecutively init _ H) as (Hn & Hi & _).
  exact (conj Hn Hi).
Defined.

(** X9.  In every state the application reaches, the items are stored,
    and so listed by [GET /items], in strictly increasing order of their
    ids, and every id is at least 1 and below [nextId]. *)
Theorem reachable_ids_sorted (reqs : list Request) :
  StronglySorted Z.lt (ids (run init reqs).1) ∧
  Forall (λ i, 1 ≤ i < nextId (run init reqs).1) (ids (run init reqs).1) ∧
  (handle (run init reqs).1 GetItems).2 = Plain (VItems (items (run init reqs).1)).
Proof.
  destruct (run_sorted_bounds 1 init reqs) as [Hs Hb]; simpl; [lia|constructor..|].
  done.
Qed.

(** X12.  In a reachable store, an id below 1 or not below [nextId] (an
    id that was never handed out) belongs to no item: [GET], [PUT] and
    [DELETE] on it answer 404 "Item not found" and leave the store as it
    is. *)
Theorem never_issued_ids_not_found (store : Store) (id : Z) (name : string) :
  reachable store → id < 1 ∨ nextId store ≤ id →
  ¬ present id store ∧
  handle store (GetItem id) = (store, not_found) ∧
  handle store (PutItem id name) = (store, not_found) ∧
  handle store (DeleteItem id) = (store, not_found) ∧
  answer store (GetItem id) = not_found_response.
Proof.
  intros Hr Hid.
  assert (¬ present id store) as H.
  { intros H%present_ids. apply reachable_bounds in Hr.
    rewrite Forall_forall in Hr. apply Hr in H. lia. }
  unfold answer. simpl.
  by rewrite get_item_absent, put_item_absent, delete_item_absent.
Qed.

Lemma never_issued_ids_not_found_witness :
  reachable two_items ∧ ((0:Z) < 1 ∨ nextId two_items ≤ 0) ∧
  ¬ present 0 two_items ∧
  handle two_items (GetItem 0) = (two_items, not_found) ∧
  handle two_items (PutItem 0 "Gadget") = (two_items, not_found) ∧
  handle two_items (DeleteItem 0) = (two_items, not_found) ∧
  answer two_items (GetItem 0) = not_found_response.
Proof.
  assert ((0:Z) < 1 ∨ nextId two_items ≤ 0) as H by (left; lia).
  split; [exact two_items_reachable|]. split; [exact H|].
  exact (never_issued_ids_not_found two_items 0 "Gadget" two_items_reachable H).
Defined.

Lemma delete_unique_length id (l : list Item.t) :
  NoDup (Item.id <$> l) → id ∈ Item.id <$> l →
  S (length (List.filter (id_is_not id) l)) = length l.
Proof.
  induction l as [|x l IH]; simpl; [by intros _ ?%elem_of_nil|].
  intros [Hx Hl]%NoDup_cons Hid. destruct (id_is_not id x) eqn:E; simpl.
  - apply id_is_not_true in E. apply elem_of_cons in Hid as [Hid|Hid]; [done|].
    f_equal. by apply IH.
  - apply not_true_iff_false in E. rewrite id_is_not_true in E.
    assert (Item.id x = id) as <- by (by destruct (decide (Item.id x = id))).
    f_equal. f_equal. apply filter_all, Forall_forall. intros y Hy.
    apply id_is_not_true. intros Ey. apply Hx. rewrite <- Ey.
    by apply list_elem_of_fmap_2.
Qed.

Lemma list_difference_nil (l : list Z) : list_difference l [] = l.
Proof.
  induction l as [|x l IH]; [done|]. cbn [list_difference].
  case_decide as H; [by apply elem_of_nil in H|]. by rewrite IH.
Qed.

Lemma list_difference_app (l1 l2 k : list Z) :
  list_difference (l1 ++ l2) k = list_difference l1 k ++ list_difference l2 k.
Proof.
  induction l1 as [|x l1 IH]; simpl; [done|]. case_decide; simpl; by rewrite IH.
Qed.

Lemma list_difference_cons_absent (l k : list Z) x :
  x ∉ l → list_difference l (x :: k) = list_difference l k.
Proof.
  induction l as [|y l IH]; simpl; [done|].
  intros [Hy Hl]%not_elem_of_cons. rewrite IH by done.
  repeat case_decide; try done.
  - apply elem_of_cons in H as [?|?]; done.
  - exfalso. apply H. by right.
Qed.

Lemma list_difference_cons_ids (l : list Item.t) (k : list Z) id :
  list_difference (Item.id <$> l) (id :: k)
  = list_difference (Item.id <$> List.filter (id_is_not id) l) k.
Proof.
  induction l as [|x l IH]; [done|]. rewrite fmap_cons. cbn [List.filter].
  cbn [list_difference]. rewrite IH.
  destruct (id_is_not id x) eqn:E; [rewrite fmap_cons; cbn [list_difference]|].
  - apply id_is_not_true in E. repeat case_decide; try done.
    + apply elem_of_cons in H as [?|?]; done.
    + exfalso. apply H. by right.
  - apply not_true_iff_false in E. rewrite id_is_not_true in E.
    assert (Item.id x = id) as Ex by (by destruct (decide (Item.id x = id))).
    case_decide as H; [done|]. exfalso. apply H. rewrite Ex. left.
Qed.

(** The ids in the store after a run are the ids of before and the ids
    handed out since, less the ids deleted since. *)
Lemma run_ids_difference store reqs :
  store_inv store →
  ids (run store reqs).1
  = list_difference (ids store ++ issued (run store reqs).2)
                    (removed (run store reqs).2).
Proof.
  revert store. induction reqs as [|req reqs IH]; intros store Hinv.
  - simpl. by rewrite app_nil_r, list_difference_nil.
  - rewrite run_cons_store, run_cons_trace, issued_cons_handle, removed_cons_handle.
    rewrite (IH _ (handle_inv store req Hinv)).
    pose proof (run_issued_bounds (handle store req).1 reqs) as Hb.
    rewrite handle_nextId_post in Hb.
    destruct req as [| |id|name|id name|id]; simpl in *; try done.
    + by rewrite get_item_store.
    + unfold ids at 1. simpl. rewrite fmap_app. simpl.
      by rewrite <- app_assoc.
    + by rewrite put_item_ids.
    + destruct (decide (present id store)) as [H|H].
      * rewrite delete_item_ids, !list_difference_app.
        unfold ids. rewrite list_difference_cons_ids. f_equal.
        symmetry. apply list_difference_cons_absent. intros Hid.
        rewrite Forall_forall in Hb. apply Hb in Hid.
        destruct Hinv as [_ Hlt]. rewrite Forall_forall in Hlt.
        apply present_ids, Hlt in H. lia.
      * by rewrite (delete_item_absent store id H).
Qed.

(** X10.  Starting from a store that satisfies the invariant, over a run
    that keeps the counter in the range where the increment of the source
    is exact, the number of items after the run is the number before,
    plus the number of items created, minus the number of [DELETE]
    requests that answered "Item deleted successfully": each of these
    takes out exactly one item. *)
Theorem items_are_counted (store : Store) (reqs : list Request) :
  store_inv store →
  run_exact store reqs →
  (length (items (run store reqs).1) + length (removed (run store reqs).2)
   = length (items store) + length (issued (run store reqs).2))%nat.
Proof.
  intros Hinv _.
  revert store Hinv. induction reqs as [|req reqs IH]; intros store Hinv; [simpl; lia|].
  rewrite run_cons_store, run_cons_trace, issued_cons_handle, removed_cons_handle.
  specialize (IH _ (handle_inv store req Hinv)).
  destruct req as [| |id|name|id name|id]; cbn [handle] in *.
  - done.
  - done.
  - by rewrite get_item_store in IH |- *.
  - simpl in *. rewrite length_app in IH. simpl in IH. lia.
  - assert (length (items (put_item store id name).1) = length (items store)) as E.
    { rewrite <- (length_fmap Item.id (items (put_item store id name).1)).
      fold (ids (put_item store id name).1).
      rewrite put_item_ids. unfold ids. apply length_fmap. }
    lia.
  - destruct (decide (present id store)) as [H|H].
    + rewrite (delete_item_present store id H) in IH |- *. simpl in *.
      destruct Hinv as [Hnd _]. apply present_ids in H.
      pose proof (delete_unique_length id (items store) Hnd H). lia.
    + by rewrite (delete_item_absent store id H) in IH |- *.
Qed.

Lemma items_are_counted_witness :
  store_inv two_items ∧
  run_exact two_items [DeleteItem 1; PostItem "Nut"; DeleteItem 1] ∧
  (length (items (run two_items [DeleteItem 1; PostItem "Nut"; DeleteItem 1]).1)
   + length (removed (run two_items [DeleteItem 1; PostItem "Nut"; DeleteItem 1]).2)
   = length (items two_items)
     + length (issued (run two_items [DeleteItem 1; PostItem "Nut"; DeleteItem 1]).2))%nat.
Proof.
  assert (run_exact two_items [DeleteItem 1; PostItem "Nut"; DeleteItem 1]) as H
    by (unfold run_exact; simpl; lia).
  split; [exact two_items_inv|]. split; [exact H|].
  exact (items_are_counted two_items [DeleteItem 1; PostItem "Nut"; DeleteItem 1]
           two_items_inv H).
Defined.

(** X11.  After any run from the initial store, the ids in the store are
    exactly the ids handed out by the [POST /items] requests of the run
    less those taken out by its successful [DELETE] requests, in the order
    of creation. *)
Theorem stored_ids_are_created_less_deleted (reqs : list Request) :
  ids (run init reqs).1
  = list_difference (issued (run init reqs).2) (removed (run init reqs).2).
Proof. apply (run_ids_difference init reqs init_inv). Qed.

(** *** Arrays and references *)

(** One request on a heap state whose store holds an array: the handler
    is defined, the store still holds an array afterwards, that array is
    the same one unless the request is a [DELETE], and every other array
    is left as it was and is not taken up by the store. *)
Lemma Refs_handle_frame st a req :
  Refs.deref st (Refs.store_items st) = Some a →
  ∃ st' r,
    Refs.handle st req = Some (st', r) ∧
    is_Some (Refs.deref st' (Refs.store_items st')) ∧
    ((∀ id, req ≠ DeleteItem id) → Refs.store_items st' = Refs.store_items st) ∧
    ((∃ id, req = DeleteItem id) →
       Refs.store_items st' ≠ Refs.store_items st ∧
       Refs.deref st' (Refs.store_items st) = Some a) ∧
    (∀ l b, l ≠ Refs.store_items st → Refs.deref st l = Some b →
            Refs.deref st' l = Some b ∧ l ≠ Refs.store_items st').
Proof.
  intros Ha.
  assert (∀ b, ((∀ id, req ≠ DeleteItem id) ∧
                ∃ r, Refs.handle st req = Some (Refs.write_items st b, r)) →
          ∃ st' r,
            Refs.handle st req = Some (st', r) ∧
            is_Some (Refs.deref st' (Refs.store_items st')) ∧
            ((∀ id, req ≠ DeleteItem id) → Refs.store_items st' = Refs.store_items st) ∧
            ((∃ id, req = DeleteItem id) →
               Refs.store_items st' ≠ Refs.store_items st ∧
               Refs.deref st' (Refs.store_items st) = Some a) ∧
            (∀ l b, l ≠ Refs.store_items st → Refs.deref st l = Some b →
                    Refs.deref st' l = Some b ∧ l ≠ Refs.store_items st')) as Hwrite.
  { intros b (Hreq & r & E). exists (Refs.write_items st b), r.
    split_and!; [done| |done| |].
    - unfold Refs.deref, Refs.write_items. simpl. rewrite lookup_insert_eq.
      by eexists.
    - intros [id ->]. by destruct (Hreq id).
    - intros l c Hl Hc. split; [|done]. unfold Refs.deref, Refs.write_items in *.
      simpl. by rewrite lookup_insert_ne. }
  assert (Refs.write_items st a = st) as Hsame.
  { destruct st as [h l n]. unfold Refs.write_items, Refs.deref in *. simpl in *.
    f_equal. by apply insert_id. }
  destruct req as [| |id|name|id name|id].
  - apply (Hwrite a). split; [done|]. rewrite Hsame. by eexists.
  - apply (Hwrite a). split; [done|]. rewrite Hsame. by eexists.
  - apply (Hwrite a). split; [done|]. rewrite Hsame. simpl. rewrite Ha. simpl.
    destruct (find (id_is id) a); by eexists.
  - simpl. unfold Refs.deref in *. simpl. rewrite Ha. simpl.
    eexists _, _. split; [done|]. simpl. split_and!; [|done| |].
    + rewrite lookup_insert_eq. by eexists.
    + intros [id [=]].
    + intros l c Hl Hc. split; [|done]. by rewrite lookup_insert_ne.
  - destruct (findIndex (id_is id) a =? -1) eqn:Hk.
    + apply (Hwrite a). split; [done|]. rewrite Hsame. simpl. rewrite Ha. simpl.
      rewrite Hk. by eexists.
    + apply (Hwrite (<[Z.to_nat (findIndex (id_is id) a) := Item.mk id name]> a)).
      split; [done|]. simpl. rewrite Ha. simpl. rewrite Hk.
      rewrite Refs_deref_write_items. simpl. by eexists.
  - destruct (Refs_handle_delete st a id Ha) as (E & Hnew & Hold & Hne).
    eexists _, _. split; [exact E|]. split_and!.
    + rewrite Hnew. by eexists.
    + intros H. by destruct (H id).
    + done.
    + intros l c Hl Hc. unfold Refs.deref in *. simpl.
      assert (fresh (dom (Refs.arrays st)) ≠ l) as Hfresh.
      { intros <-. apply (is_fresh (dom (Refs.arrays st))).
        apply elem_of_dom. by exists c. }
      split; [by rewrite lookup_insert_ne | done].
Qed.

Lemma Refs_run_frame reqs st a :
  Refs.deref st (Refs.store_items st) = Some a →
  ∃ st',
    Refs_run st reqs = Some st' ∧
    is_Some (Refs.deref st' (Refs.store_items st')) ∧
    (∀ l b, l ≠ Refs.store_items st → Refs.deref st l = Some b →
            Refs.deref st' l = Some b ∧ l ≠ Refs.store_items st').
Proof.
  revert st a. induction reqs as [|req reqs IH]; intros st a Ha.
  - exists st. simpl. split_and!; [done|by eexists|]. by intros l b Hl Hb.
  - destruct (Refs_handle_frame st a req Ha) as (st1 & r & E & [a1 Ha1] & _ & _ & Hframe).
    destruct (IH st1 a1 Ha1) as (st' & Erun & Hsome & Hframe').
    exists st'. simpl. rewrite E. simpl. split_and!; [done..|].
    intros l b Hl Hb. destruct (Hframe l b Hl Hb) as [Hb1 Hl1].
    by apply Hframe'.
Qed.

Lemma replaced_once_run :
  Refs_run Refs.init [PostItem "Widget"; DeleteItem 1] = Some replaced_once.
Proof. vm_compute. reflexivity. Qed.

(** X13.  An array that the store does not hold (one it has replaced
    earlier) is never written to again and never becomes the store's
    array again, whatever requests are served; and every request
    sequence is served to the end. *)
Theorem replaced_array_is_never_changed
    (st : Refs.State) (a b : list Item.t) (l : Refs.loc) (reqs : list Request) :
  Refs.deref st (Refs.store_items st) = Some a →
  l ≠ Refs.store_items st →
  Refs.deref st l = Some b →
  ∃ st', Refs_run st reqs = Some st' ∧
         Refs.deref st' l = Some b ∧
         Refs.store_items st' ≠ l.
Proof.
  intros Ha Hl Hb.
  destruct (Refs_run_frame reqs st a Ha) as (st' & E & _ & Hframe).
  exists st'. destruct (Hframe l b Hl Hb) as [Hb' Hl']. done.
Qed.

Lemma replaced_array_is_never_changed_witness :
  Refs.deref replaced_once (Refs.store_items replaced_once) = Some [] ∧
  1%positive ≠ Refs.store_items replaced_once ∧
  Refs.deref replaced_once 1%positive = Some [Item.mk 1 "Widget"] ∧
  ∃ st', Refs_run replaced_once [PostItem "Bolt"; PutItem 1 "Gadget"; DeleteItem 2]
         = Some st' ∧
         Refs.deref st' 1%positive = Some [Item.mk 1 "Widget"] ∧
         Refs.store_items st' ≠ 1%positive.
Proof.
  assert (1%positive ≠ Refs.store_items replaced_once) as Hne by done.
  split; [reflexivity|]. split; [exact Hne|]. split; [reflexivity|].
  exact (replaced_array_is_never_changed replaced_once [] [Item.mk 1 "Widget"]
           1%positive [PostItem "Bolt"; PutItem 1 "Gadget"; DeleteItem 2]
           eq_refl Hne eq_refl).
Defined.

(** X14.  Once a [DELETE /items/:id] has been served, whether it deleted
    something or answered 404, the array an earlier [GET /items] returned
    keeps the contents it had before the [DELETE], whatever is served
    afterwards, and is no longer the array of the store. *)
Theorem list_result_is_frozen_by_delete
    (st : Refs.State) (a : list Item.t) (id : Z) (reqs : list Request) :
  Refs.deref st (Refs.store_items st) = Some a →
  Refs.handle st GetItems
  = Some (st, Refs.RPlain (Refs.RArray (Refs.store_items st))) ∧
  ∃ st', Refs_run st (DeleteItem id :: reqs) = Some st' ∧
         Refs.deref st' (Refs.store_items st) = Some a ∧
         Refs.store_items st' ≠ Refs.store_items st.
Proof.
  intros Ha. split; [done|].
  destruct (Refs_handle_frame st a (DeleteItem id) Ha)
    as (st1 & r & E & [a1 Ha1] & _ & Hdel & _).
  destruct Hdel as [Hne Hold]; [by exists id|].
  destruct (Refs_run_frame reqs st1 a1 Ha1) as (st' & Erun & _ & Hframe).
  exists st'. cbn [Refs_run]. rewrite E. simpl.
  destruct (Hframe (Refs.store_items st) a) as [Hold' Hne']; [done..|].
  done.
Qed.

Lemma list_result_is_frozen_by_delete_witness :
  Refs.deref Refs.init (Refs.store_items Refs.init) = Some [] ∧
  ∃ st', Refs_run Refs.init [DeleteItem 5; PostItem "Widget"] = Some st' ∧
         Refs.deref st' (Refs.store_items Refs.init) = Some [] ∧
         Refs.store_items st' ≠ Refs.store_items Refs.init.
Proof.
  split; [reflexivity|].
  exact (proj2 (list_result_is_frozen_by_delete Refs.init [] 5 [PostItem "Widget"]
                  eq_refl)).
Defined.

(** X15.  The store's array is replaced by exactly the [DELETE] handler:
    every other request leaves [store.items] pointing to the same array,
    while a [DELETE] always installs a newly allocated array (one at a
    location that held no array before) with the filtered contents, and
    leaves every array that existed, the old one of the store included, as
    it was; a [DELETE] that finds nothing answers 404 and installs an
    array with the same contents. *)
Theorem store_array_replaced_exactly_by_delete
    (st : Refs.State) (a : list Item.t) (req : Request) :
  Refs.deref st (Refs.store_items st) = Some a →
  ∃ st' r,
    Refs.handle st req = Some (st', r) ∧
    ((∀ id, req ≠ DeleteItem id) → Refs.store_items st' = Refs.store_items st) ∧
    ((∃ id, req = DeleteItem id) →
       Refs.store_items st' ≠ Refs.store_items st ∧
       Refs.deref st' (Refs.store_items st) = Some a) ∧
    (∀ id, req = DeleteItem id →
       Refs.deref st (Refs.store_items st') = None ∧
       (Refs.store_items st' ∉ dom (Refs.arrays st)) ∧
       Refs.deref st' (Refs.store_items st')
       = Some (List.filter (λ i, negb (Item.id i =? id)) a) ∧
       (∀ l b, Refs.deref st l = Some b → Refs.deref st' l = Some b)) ∧
    (∀ id, req = DeleteItem id →
       ¬ present id {| items := a; nextId := Refs.store_nextId st |} →
       r = Refs.RNewResponse "Item not found" 404 ∧
       Refs.deref st' (Refs.store_items st') = Some a).
Proof.
  intros Ha.
  destruct (Refs_handle_frame st a req Ha) as (st' & r & E & _ & Hkeep & Hdel & _).
  exists st', r. split_and!; [done..| |].
  - intros id ->.
    destruct (Refs_handle_delete st a id Ha) as (E' & Hnew & _ & _).
    rewrite E in E'. injection E' as -> ->. simpl in *.
    pose proof (is_fresh (dom (Refs.arrays st))) as Hfresh.
    split_and!.
    + unfold Refs.deref. by apply not_elem_of_dom.
    + done.
    + exact Hnew.
    + intros l b Hb. unfold Refs.deref in *. simpl.
      rewrite lookup_insert_ne; [done|]. intros <-.
      apply Hfresh, elem_of_dom. by exists b.
  - intros id -> Habsent.
    destruct (Refs_handle_delete st a id Ha) as (E' & Hnew & _ & _).
    rewrite E in E'. injection E' as -> ->. simpl in *.
    apply absent_Forall in Habsent. simpl in Habsent.
    assert (List.filter (id_is_not id) a = a) as Hf.
    { apply filter_all. eapply Forall_impl; [exact Habsent|]. intros i Hi.
      simpl in Hi. apply id_is_not_true. by apply id_is_false. }
    rewrite Hnew, Hf. by rewrite Nat.eqb_refl.
Qed.

Lemma store_array_replaced_exactly_by_delete_witness :
  Refs.deref Refs.init (Refs.store_items Refs.init) = Some [] ∧
  ∃ st' r,
    Refs.handle Refs.init (DeleteItem 5) = Some (st', r) ∧
    Refs.store_items st' ≠ Refs.store_items Refs.init ∧
    (Refs.store_items st' ∉ dom (Refs.arrays Refs.init)) ∧
    r = Refs.RNewResponse "Item not found" 404 ∧
    Refs.deref st' (Refs.store_items st') = Some [].
Proof.
  split; [reflexivity|].
  destruct (store_array_replaced_exactly_by_delete Refs.init [] (DeleteItem 5) eq_refl)
    as (st' & r & E & _ & Hdel & Hnew & Hfail).
  exists st', r. split; [exact E|].
  destruct Hdel as [Hne _]; [by exists 5|].
  destruct (Hnew 5 eq_refl) as (_ & Hfresh & _).
  split; [exact Hne|]. split; [exact Hfresh|]. apply (Hfail 5 eq_refl).
  intros (i & Hi & _). by apply elem_of_nil in Hi.
Defined.

(** X16.  Serving requests on the heap, where [push] and the indexed
    assignment write into the store's array and [filter] allocates, gives
    the store the same contents and the same [nextId] as serving them on
    the store taken as a value: sharing the array never changes what the
    store holds. *)
Theorem heap_run_has_the_contents_of_run
    (st : Refs.State) (store : Store) (reqs : list Request) :
  Refs.contents st = Some store →
  ∃ st', Refs_run st reqs = Some st' ∧
         Refs.contents st' = Some (run store reqs).1.
Proof.
  revert st store. induction reqs as [|req reqs IH]; intros st store H.
  - by exists st.
  - destruct (Refs_simulation st store req H) as (st1 & r & E & H1 & _).
    destruct (IH st1 _ H1) as (st' & Erun & H').
    exists st'. rewrite run_cons_store. cbn [Refs_run]. by rewrite E.
Qed.

Lemma heap_run_has_the_contents_of_run_witness :
  Refs.contents Refs.init = Some init ∧
  ∃ st', Refs_run Refs.init [PostItem "Widget"; DeleteItem 1] = Some st' ∧
         Refs.contents st' = Some (run init [PostItem "Widget"; DeleteItem 1]).1.
Proof.
  split; [reflexivity|].
  exact (heap_run_has_the_contents_of_run Refs.init init
           [PostItem "Widget"; DeleteItem 1] eq_refl).
Defined.
